(** * Scroll-coordinated UI engine of [src/js/post.js]

    A shallow embedding of the three cooperating pieces of [$posts]:
    the [Scroller] (scroll batching), [showTopic] (the floating topic
    bar) and [catalogueHighlight] (the table-of-contents tracker),
    together with the properties the specification states about them.

    Conventions of the embedding:
    - pixel quantities ([pageYOffset], [offsetTop], heights) are [Z];
    - a [classList] is a finite set of class names ([gset string]);
    - a JavaScript value that may be [undefined]/[NaN] is an [option];
    - a statement that can throw a [TypeError] returns in [Completion]. *)

From stdpp Require Import gmap strings list.
From Stdlib Require Import ZArith Sorted.

Open Scope Z_scope.

(** * The model *)

(** ** DOM primitives *)

Module ClassList.

(** [DOMTokenList], as the set of its tokens: [add] of a present token
    and [remove] of an absent one change nothing. *)
Definition add (c : string) (cl : gset string) : gset string := cl ∪ {[ c ]}.
Definition remove (c : string) (cl : gset string) : gset string := cl ∖ {[ c ]}.
Definition contains (c : string) (cl : gset string) : bool := bool_decide (c ∈ cl).

End ClassList.

(** ** JavaScript numbers that may be [NaN]

    [evt && evt.beforeOffsetY] is [undefined] when [showTopic] is called
    without a snapshot; [undefined - n] is [NaN], every ordering test on
    [NaN] is false and [NaN !== 0] is true. *)

Module JsNum.

Definition sub (a : option Z) (b : Z) : option Z :=
  match a with
  | Some x => Some (x - b)
  | None => None
  end.

Definition gt (a : option Z) (b : Z) : bool :=
  match a with
  | Some x => b <? x
  | None => false
  end.

Definition strict_eq (a : option Z) (b : Z) : bool :=
  match a with
  | Some x => x =? b
  | None => false
  end.

Definition strict_ne (a : option Z) (b : Z) : bool := negb (strict_eq a b).

End JsNum.

(** ** The page *)

(** The parameter object the [Scroller] hands to every callback. The
    [event] field is the opaque DOM event; only its identity matters. *)
Record ScrollSnapshot := {
  event : nat;
  beforeOffsetY : Z
}.

(** An element carrying an [id] (the headings the TOC links point at). *)
Record Heading := {
  h_id : string;
  h_offsetTop : Z
}.

(** An [<a>] inside [.toc]. [href] is [None] when [link.href] is empty
    and otherwise holds the fragment [decodeURI(link.href).split('#')[1]];
    the theme renders the attribute as ["#" + encodeURI(id)], so the same
    fragment is what the selector [a[href="#..."]] matches on. *)
Record TocLink := {
  href : option string;
  l_offsetTop : Z;
  l_classList : gset string
}.

Record Page := {
  pageYOffset : Z;
  innerHeight : Z;
  postTitle_offsetTop : Z;
  postTitle_height : Z;
  postTopic : gset string;
  elements : list Heading;
  toc_links : list TocLink;
  toc_height : Z;
  toc_scrollTo : Z
}.

Definition set_pageYOffset (y : Z) (p : Page) : Page :=
  {| pageYOffset := y; innerHeight := innerHeight p;
     postTitle_offsetTop := postTitle_offsetTop p;
     postTitle_height := postTitle_height p;
     postTopic := postTopic p; elements := elements p;
     toc_links := toc_links p; toc_height := toc_height p;
     toc_scrollTo := toc_scrollTo p |}.

Definition set_postTopic (cl : gset string) (p : Page) : Page :=
  {| pageYOffset := pageYOffset p; innerHeight := innerHeight p;
     postTitle_offsetTop := postTitle_offsetTop p;
     postTitle_height := postTitle_height p;
     postTopic := cl; elements := elements p;
     toc_links := toc_links p; toc_height := toc_height p;
     toc_scrollTo := toc_scrollTo p |}.

Definition set_toc_links (ls : list TocLink) (p : Page) : Page :=
  {| pageYOffset := pageYOffset p; innerHeight := innerHeight p;
     postTitle_offsetTop := postTitle_offsetTop p;
     postTitle_height := postTitle_height p;
     postTopic := postTopic p; elements := elements p;
     toc_links := ls; toc_height := toc_height p;
     toc_scrollTo := toc_scrollTo p |}.

Definition set_toc_scrollTo (y : Z) (p : Page) : Page :=
  {| pageYOffset := pageYOffset p; innerHeight := innerHeight p;
     postTitle_offsetTop := postTitle_offsetTop p;
     postTitle_height := postTitle_height p;
     postTopic := postTopic p; elements := elements p;
     toc_links := toc_links p; toc_height := toc_height p;
     toc_scrollTo := y |}.

(** How a callback ends: normally, or by a [TypeError] raised on a
    property access of [null]. The page is returned in both cases, since
    the DOM mutations made before the throw stay. *)
Inductive Completion (A : Type) :=
| Normal (a : A) (p : Page)
| Throw (p : Page).

Arguments Normal {A} a p.
Arguments Throw {A} p.

Definition page_of {A} (c : Completion A) : Page :=
  match c with
  | Normal _ p => p
  | Throw p => p
  end.

Definition value_of {A} (c : Completion A) : option A :=
  match c with
  | Normal a _ => Some a
  | Throw _ => None
  end.

(** ** [showTopic] *)

Module TopicBar.

Import ClassList.

Definition hidden : string := "is-hidden-topic-bar".
Definition immediately : string := "immediately-show".
Definition switch : string := "is-switch-post-title".
Definition show : string := "is-show-post-title".
Definition tips : string := "is-show-scrollToTop-tips".
Definition flash : string := "is-flash-scrollToTop-tips".

(** The five variant markers and the hidden marker. *)
Definition markers : list string :=
  [immediately; switch; show; tips; flash; hidden].

(** The state markers present on a class list. *)
Definition markers_on (cl : gset string) : list string :=
  filter (λ m, m ∈ cl) markers.

(** [postTitle.offsetTop + postTitleCoordinate.height] *)
Definition threshold (p : Page) : Z :=
  postTitle_offsetTop p + postTitle_height p.

(** [showTopic(evt)], acting on the class list of [#postTopic]. *)
Definition showTopic (evt : option ScrollSnapshot) (p : Page) : Page :=
  let topicEl := postTopic p in
  let threshold := threshold p in
  if threshold <? pageYOffset p then
    let beforeOffsetY := beforeOffsetY <$> evt in
    let delta := JsNum.sub beforeOffsetY (pageYOffset p) in
    let isScrollToTop := JsNum.gt delta 0 in
    let topicEl := remove hidden topicEl in
    if JsNum.strict_eq delta 0 then
      let topicEl := remove switch topicEl in
      let topicEl := remove show topicEl in
      let topicEl := remove immediately topicEl in
      if contains tips topicEl then
        let topicEl := remove tips topicEl in
        set_postTopic (add flash topicEl) p
      else
        set_postTopic (add immediately topicEl) p
    else if isScrollToTop then
      if innerHeight p * 2 <? pageYOffset p then
        let topicEl := remove immediately topicEl in
        let topicEl := remove show topicEl in
        let topicEl := remove switch topicEl in
        let topicEl := remove flash topicEl in
        set_postTopic (add tips topicEl) p
      else
        let topicEl := remove immediately topicEl in
        let topicEl := remove show topicEl in
        let topicEl := remove tips topicEl in
        let topicEl := remove flash topicEl in
        set_postTopic (add switch topicEl) p
    else if JsNum.strict_ne delta 0 then
      let topicEl := remove immediately topicEl in
      let topicEl := remove switch topicEl in
      let topicEl := remove tips topicEl in
      let topicEl := remove flash topicEl in
      set_postTopic (add show topicEl) p
    else
      set_postTopic topicEl p
  else
    let topicEl := remove flash topicEl in
    let topicEl := remove tips topicEl in
    let topicEl := remove switch topicEl in
    let topicEl := remove show topicEl in
    let topicEl := remove immediately topicEl in
    set_postTopic (add hidden topicEl) p.

(** One batch as the controller sees it: the snapshot, and the live
    scroll offset at dispatch time. *)
Definition transition (p : Page) (b : ScrollSnapshot * Z) : Page :=
  showTopic (Some b.1) (set_pageYOffset b.2 p).

Definition transitions (p : Page) (bs : list (ScrollSnapshot * Z)) : Page :=
  foldl transition p bs.

(** Every branch of [showTopic] ends in [add a (remove r1 (remove r2 ...))]. *)
Definition removes (rs : list string) (cl : gset string) : gset string :=
  foldr remove cl rs.

(** Whether [m] is in [add a (removes rs cl)], given whether it [was] in [cl]. *)
Definition mem_after (a : string) (rs : list string) (was : bool) (m : string) : bool :=
  String.eqb m a || negb (existsb (String.eqb m) rs) && was.

End TopicBar.

(** ** [catalogueHighlight] *)

Module Toc.

Definition activeClassName : string := "is-active".
Definition spacing : Z := 60.

(** [document.getElementById(id)]: the first element with that id. *)
Definition getElementById (id : string) (p : Page) : option Heading :=
  snd <$> list_find (λ h, h_id h = id) (elements p).

(** [document.querySelector('.toc .is-active')], as an index into the
    TOC links (only links ever carry the marker). *)
Definition query_active (ls : list TocLink) : option nat :=
  fst <$> list_find (λ l, activeClassName ∈ l_classList l) ls.

(** [document.querySelector('.toc a[href="#' + encodeURI(id) + '"]')]:
    the first matching link, with its index. The match is on the
    fragment a [TocLink] carries, which stands for the attribute the
    theme renders; on a page whose attribute is not of that form the
    selector of the source can also miss for a resolved heading. *)
Definition query_href (id : string) (ls : list TocLink) : option (nat * TocLink) :=
  list_find (λ l, href l = Some id) ls.

Definition on_classList (f : gset string → gset string) (l : TocLink) : TocLink :=
  {| href := href l; l_offsetTop := l_offsetTop l;
     l_classList := f (l_classList l) |}.

(** [beforeActiveEl && beforeActiveEl.classList.remove(activeClassName)] *)
Definition clear_active (ls : list TocLink) : list TocLink :=
  match query_active ls with
  | Some i => alter (on_classList (ClassList.remove activeClassName)) i ls
  | None => ls
  end.

(** The [directory.forEach] that fills [contentTocList]: links without
    an href are skipped, every other link pushes whatever
    [getElementById] returns, [null] included. *)
Definition contentTocList (p : Page) : list (option Heading) :=
  flat_map (λ link,
    match href link with
    | None => []
    | Some id => [getElementById id p]
    end) (toc_links p).

(** The candidate test, negated: [currentTopic.offsetTop > scrollTop + spacing / 2]. *)
Definition below_fold (scrollTop : Z) (h : Heading) : bool :=
  scrollTop + spacing / 2 <? h_offsetTop h.

(** The two assignments to [activeTopicEl] of one iteration. *)
Definition next_active (activeTopicEl : option Heading) (currentTopic : Heading) : Heading :=
  match activeTopicEl with
  | None => currentTopic
  | Some a =>
      if h_offsetTop a - spacing <=? h_offsetTop currentTopic + spacing
      then currentTopic else a
  end.

(** The panel scroll requested for the link [direc]. *)
Definition panel_target (direc_offsetTop tocContainerHeight : Z) : Z :=
  if tocContainerHeight - spacing <=? direc_offsetTop
  then direc_offsetTop + 100 - tocContainerHeight
  else 0.

(** The [for] loop over [contentTocList], from index [i] on. The
    result carries the final [activeTopicEl]. *)
Fixpoint toc_loop (scrollTop : Z) (rest : list (option Heading))
    (activeTopicEl : option Heading) (p : Page) : Completion (option Heading) :=
  match rest with
  | [] => Normal activeTopicEl p
  | None :: _ => Throw p
  | Some currentTopic :: rest =>
      if below_fold scrollTop currentTopic then
        toc_loop scrollTop rest activeTopicEl p
      else
        let activeTopicEl := next_active activeTopicEl currentTopic in
        let p := set_toc_links (clear_active (toc_links p)) p in
        match query_href (h_id activeTopicEl) (toc_links p) with
        | None => Throw p
        | Some direc =>
            let p := set_toc_links
                       (alter (on_classList (ClassList.add activeClassName))
                              direc.1 (toc_links p)) p in
            let tocContainerHeight := toc_height p in
            let p := set_toc_scrollTo
                       (panel_target (l_offsetTop direc.2) tocContainerHeight) p in
            toc_loop scrollTop rest (Some activeTopicEl) p
        end
  end.

(** The function [catalogueHighlight] returns: one TOC pass. *)
Definition toc_pass (p : Page) : Completion (option Heading) :=
  let contentTocList := contentTocList p in
  let activeTopicEl := None in
  let scrollTop := pageYOffset p in
  toc_loop scrollTop contentTocList activeTopicEl p.

(** [catalogueHighlight()]: [false] on a page without TOC links. *)
Definition catalogueHighlight (p : Page) : option (Page → Completion (option Heading)) :=
  if bool_decide (length (toc_links p) = 0%nat) then None else Some toc_pass.

(** The TOC links that carry the active marker, by index. *)
Definition active_links (p : Page) : list nat :=
  fst <$> filter (λ il, activeClassName ∈ l_classList il.2) (imap pair (toc_links p)).

(** *** Notions used to state the properties of a pass *)

(** What a pass leaves alone. A pass only edits class lists of TOC
    links and the panel scroll: the hrefs and positions of the links, the
    headings, the window offset and the panel height stay. *)
Definition shape (ls : list TocLink) : list (option string * Z) :=
  (λ l, (href l, l_offsetTop l)) <$> ls.

Record same_layout (p q : Page) : Prop := {
  same_pageYOffset : pageYOffset p = pageYOffset q;
  same_elements : elements p = elements q;
  same_shape : shape (toc_links p) = shape (toc_links q);
  same_toc_height : toc_height p = toc_height q
}.

(** The choice of the active heading, without the DOM. *)
Fixpoint scan (scrollTop : Z) (rest : list (option Heading))
    (activeTopicEl : option Heading) : option (option Heading) :=
  match rest with
  | [] => Some activeTopicEl
  | None :: _ => None
  | Some currentTopic :: rest =>
      if below_fold scrollTop currentTopic
      then scan scrollTop rest activeTopicEl
      else scan scrollTop rest (Some (next_active activeTopicEl currentTopic))
  end.

(** A heading some TOC link points at. *)
Definition linked (ls : list TocLink) (h : Heading) : Prop :=
  is_Some (query_href (h_id h) ls).

(** What the body of the loop establishes for the heading it has just
    made active: its link is found, carries the marker, and the panel
    scroll was requested for that link. *)
Definition settled (p : Page) (a : Heading) : Prop :=
  ∃ i l, query_href (h_id a) (toc_links p) = Some (i, l)
         ∧ activeClassName ∈ l_classList l
         ∧ toc_scrollTo p = panel_target (l_offsetTop l) (toc_height p).

(** The page after [n] further passes at the same scroll offset. *)
Definition passes (n : nat) (p : Page) : Page :=
  Nat.iter n (λ q, page_of (toc_pass q)) p.

(** The specification's reading for sorted headings: the last heading,
    in document order, whose offset is at most [scrollOffset + spacing/2]. *)
Definition last_candidate (scrollTop : Z) (hs : list Heading) : option Heading :=
  last (filter (λ h, h_offsetTop h <= scrollTop + spacing / 2) hs).

End Toc.

(** ** [Scroller] *)

Module Scroller.

(** The variables one invocation of the scroll listener declares and
    its [setTimeout] callback closes over:
    [var wait], [event] and [var beforeOffsetY]. *)
Record Frame := {
  wait : bool;
  f_event : nat;
  f_beforeOffsetY : Z
}.

Definition set_wait (b : bool) (fr : Frame) : Frame :=
  {| wait := b; f_event := f_event fr; f_beforeOffsetY := f_beforeOffsetY fr |}.

(** A pending [setTimeout] callback and the frame it closes over. *)
Record Timer := {
  due : Z;
  env : nat
}.

Definition Callback : Type := ScrollSnapshot → Page → Completion unit.

(** The window, the listener frames allocated so far, the timer queue
    (oldest first) and, as a trace, the [params] objects built so far. *)
Record State := {
  now : Z;
  page : Page;
  frames : list Frame;
  timers : list Timer;
  dispatched : list ScrollSnapshot
}.

Definition init (p : Page) : State :=
  {| now := 0; page := p; frames := []; timers := []; dispatched := [] |}.

(** [_that.callbacks.forEach(function (func) { func(params) })]: a
    callback that throws ends the iteration. *)
Fixpoint forEach (callbacks : list Callback) (params : ScrollSnapshot)
    (p : Page) : Completion unit :=
  match callbacks with
  | [] => Normal tt p
  | func :: callbacks =>
      match func params p with
      | Normal _ p => forEach callbacks params p
      | Throw p => Throw p
      end
  end.

(** The listener [bindScrollEvent] registers, run for one scroll event.
    [var wait = false] and [var beforeOffsetY] are declared inside the
    listener: each invocation gets a frame of its own, and the test
    [if (wait) return] reads the [wait] of that fresh frame. *)
Definition listener (event : nat) (s : State) : State :=
  let fr := {| wait := false; f_event := event;
               f_beforeOffsetY := pageYOffset (page s) |} in
  if wait fr then
    {| now := now s; page := page s; frames := frames s ++ [fr];
       timers := timers s; dispatched := dispatched s |}
  else
    let fr := set_wait true fr in
    {| now := now s; page := page s; frames := frames s ++ [fr];
       timers := timers s ++ [ {| due := now s + 150; env := length (frames s) |} ];
       dispatched := dispatched s |}.

(** The function handed to [setTimeout], run on the frame [e]. *)
Definition timeout (callbacks : list Callback) (e : nat) (s : State) : State :=
  match frames s !! e with
  | None => s
  | Some fr =>
      let params := {| event := f_event fr; beforeOffsetY := f_beforeOffsetY fr |} in
      match forEach callbacks params (page s) with
      | Normal _ p =>
          {| now := now s; page := p;
             frames := alter (set_wait false) e (frames s);
             timers := timers s; dispatched := dispatched s ++ [params] |}
      | Throw p =>
          {| now := now s; page := p; frames := frames s;
             timers := timers s; dispatched := dispatched s ++ [params] |}
      end
  end.

(** What happens to the window. *)
Inductive Input :=
| Scroll (event : nat) (y : Z)   (* the page scrolls to [y]; a scroll event fires *)
| Elapse (dt : Z).               (* [dt] time units pass *)

Definition is_due (t : Z) (tm : Timer) : bool := due tm <=? t.

Definition step (callbacks : list Callback) (s : State) (i : Input) : State :=
  match i with
  | Scroll event y =>
      listener event
        {| now := now s; page := set_pageYOffset y (page s);
           frames := frames s; timers := timers s; dispatched := dispatched s |}
  | Elapse dt =>
      let t := now s + dt in
      foldl (λ s tm, timeout callbacks (env tm) s)
        {| now := t; page := page s; frames := frames s;
           timers := List.filter (λ tm, negb (is_due t tm)) (timers s);
           dispatched := dispatched s |}
        (List.filter (is_due t) (timers s))
  end.

Definition run (callbacks : list Callback) (s : State) (inputs : list Input) : State :=
  foldl (step callbacks) s inputs.

Definition is_scroll (i : Input) : bool :=
  match i with
  | Scroll _ _ => true
  | Elapse _ => false
  end.

(** Every pending timer closes over an allocated frame. *)
Definition timers_bound (s : State) : Prop :=
  Forall (λ tm, (env tm < length (frames s))%nat) (timers s).

End Scroller.

(** ** [mounted]: the wiring of the two observers *)

Definition mounted (p : Page) : list Scroller.Callback :=
  match Toc.catalogueHighlight p with
  | Some pass =>
      [λ _ p, match pass p with
              | Normal _ p => Normal tt p
              | Throw p => Throw p
              end]
  | None => []
  end
  ++ [λ params p, Normal tt (TopicBar.showTopic (Some params) p)].

(** ** Concrete pages *)

Module Pages.

Import TopicBar Toc.

(** A post page scrolled to [y]: title block ending at 150px, viewport
    1000px high, the class list [cl] on the topic bar. *)
Definition post_page (y : Z) (cl : gset string) : Page :=
  {| pageYOffset := y; innerHeight := 1000;
     postTitle_offsetTop := 100; postTitle_height := 50;
     postTopic := cl; elements := []; toc_links := [];
     toc_height := 0; toc_scrollTo := 0 |}.

Definition params (e : nat) (before : Z) : ScrollSnapshot :=
  {| event := e; beforeOffsetY := before |}.

(** TOC pages: headings, their links, and the height of the panel. *)
Definition heading (k : string) (top : Z) : Heading :=
  {| h_id := k; h_offsetTop := top |}.

Definition link (k : string) (top : Z) : TocLink :=
  {| href := Some k; l_offsetTop := top; l_classList := ∅ |}.

Definition toc_page (y : Z) (hs : list Heading) (ls : list TocLink) (height : Z) : Page :=
  {| pageYOffset := y; innerHeight := 1000;
     postTitle_offsetTop := 100; postTitle_height := 50;
     postTopic := ∅; elements := hs; toc_links := ls;
     toc_height := height; toc_scrollTo := 0 |}.

(** The second link points at an id no element carries. *)
Definition dangling_page : Page :=
  toc_page 850 [heading "intro" 0] [link "intro" 0; link "gone" 24] 400.

(** Three sections, their links 24px apart in a panel 400px high. *)
Definition three_sections : Page :=
  toc_page 850
    [heading "intro" 0; heading "usage" 800; heading "faq" 1600]
    [link "intro" 0; link "usage" 24; link "faq" 48] 400.

(** The only link sits exactly at [height - spacing]. *)
Definition boundary_page : Page :=
  toc_page 850 [heading "intro" 0] [link "intro" 340] 400.

(** Scrolled to 100, above both headings; the first link is marked. *)
Definition top_of_page : Page :=
  toc_page 100
    [heading "intro" 500; heading "usage" 900]
    [{| href := Some "intro"; l_offsetTop := 0; l_classList := {[ activeClassName ]} |};
     link "usage" 24] 400.

End Pages.

(** ** Notions for further properties *)

Module TocMarks.

Import Toc.

(** The link carries the [is-active] marker. *)
Definition is_active (l : TocLink) : Prop :=
  activeClassName ∈ l_classList l.

(** At most one TOC link is marked. *)
Definition at_most_one_active (ls : list TocLink) : Prop :=
  ∀ i j li lj, ls !! i = Some li → ls !! j = Some lj →
               is_active li → is_active lj → i = j.

(** The link at index [i], and no other, is marked. *)
Definition only_active (i : nat) (ls : list TocLink) : Prop :=
  ∀ j lj, ls !! j = Some lj → (is_active lj ↔ j = i).

(** No link is marked. *)
Definition none_active (ls : list TocLink) : Prop :=
  ∀ j lj, ls !! j = Some lj → ¬ is_active lj.

(** The entry of [contentTocList] is a resolved heading that fails the
    candidate test. *)
Definition below (scrollTop : Z) (o : option Heading) : Prop :=
  ∃ h, o = Some h ∧ h_offsetTop h > scrollTop + spacing / 2.

(** Two versions of a link that differ at most in the [is-active]
    class. *)
Definition same_but_marker (l l' : TocLink) : Prop :=
  href l = href l' ∧ l_offsetTop l = l_offsetTop l'
  ∧ ∀ c, c ≠ activeClassName → (c ∈ l_classList l' ↔ c ∈ l_classList l).

(** A TOC page that carries class lists on its links. *)
Definition marked_link (k : string) (top : Z) : TocLink :=
  {| href := Some k; l_offsetTop := top; l_classList := {[ activeClassName ]} |}.

Definition stale_page : Page :=
  Pages.toc_page 850
    [Pages.heading "intro" 0; Pages.heading "usage" 800; Pages.heading "faq" 1600]
    [Pages.link "intro" 0; Pages.link "usage" 24; marked_link "faq" 48] 400.

End TocMarks.

Module ScrollerTrace.

Import Scroller.

(** The [params] object the timer callback builds from its frame. *)
Definition snapshot_of (fr : Frame) : ScrollSnapshot :=
  {| event := f_event fr; beforeOffsetY := f_beforeOffsetY fr |}.

(** The snapshot each listener frame holds. *)
Definition shots (s : State) : list ScrollSnapshot :=
  snapshot_of <$> frames s.

(** The snapshots of the dispatches still pending, oldest first. *)
Definition pending (s : State) : list ScrollSnapshot :=
  omap (λ tm, shots s !! env tm) (timers s).

(** The scroll notifications among the inputs, each with the event and
    the offset the page had when it arrived. *)
Definition notifications (inputs : list Input) : list ScrollSnapshot :=
  omap (λ i, match i with
             | Scroll e y => Some {| event := e; beforeOffsetY := y |}
             | Elapse _ => None
             end) inputs.

(** Time does not run backwards. *)
Definition forward (inputs : list Input) : Prop :=
  Forall (λ i, match i with
               | Scroll _ _ => True
               | Elapse dt => 0 <= dt
               end) inputs.

(** The timer queue is in order of due time, nothing in it is overdue
    and nothing is due more than the quiet interval ahead. *)
Definition on_schedule (s : State) : Prop :=
  StronglySorted (λ a b, due a <= due b) (timers s)
  ∧ Forall (λ tm, now s < due tm <= now s + 150) (timers s).

(** The scroll notifications among the inputs with their arrival times,
    the clock being at [t] when the inputs start. *)
Fixpoint arrivals (t : Z) (inputs : list Input) : list (Z * ScrollSnapshot) :=
  match inputs with
  | [] => []
  | Scroll e y :: inputs =>
      (t, {| event := e; beforeOffsetY := y |}) :: arrivals t inputs
  | Elapse dt :: inputs => arrivals (t + dt) inputs
  end.

(** The time after the inputs. *)
Fixpoint clock (t : Z) (inputs : list Input) : Z :=
  match inputs with
  | [] => t
  | Scroll _ _ :: inputs => clock t inputs
  | Elapse dt :: inputs => clock (t + dt) inputs
  end.

(** At time [t] the quiet interval of the arrival [a] is over. *)
Definition ripe (t : Z) (a : Z * ScrollSnapshot) : bool := a.1 + 150 <=? t.

(** The timer [tm] is the pending dispatch of the arrival [a]. *)
Definition timer_of (s : State) (a : Z * ScrollSnapshot) (tm : Timer) : Prop :=
  due tm = a.1 + 150 ∧ shots s !! env tm = Some a.2 ∧ now s < due tm.

(** The arrivals [A] so far split into those dispatched, all ripe, and
    those whose timers are pending, in the same order. *)
Definition accounts_for (s : State) (A : list (Z * ScrollSnapshot)) : Prop :=
  ∃ Ad Ap, A = Ad ++ Ap
    ∧ dispatched s = snd <$> Ad
    ∧ Forall (λ a, ripe (now s) a = true) Ad
    ∧ Forall2 (timer_of s) Ap (timers s).

End ScrollerTrace.

(** ** [smoothScrollToTop] *)

Module SmoothScroll.

(** [a || b] on numbers: [0] is the falsy one. *)
Definition js_or (a b : Z) : Z := if a =? 0 then b else a.

(** [document.body.scrollTop] and [document.documentElement.scrollTop]
    of a standards-mode document: the root element scrolls with the
    viewport, the body does not scroll. *)
Definition body_scrollTop (p : Page) : Z := 0.
Definition documentElement_scrollTop (p : Page) : Z := pageYOffset p.

(** [scrollTo(0, y)]. The targets below lie between the top and the
    current offset, hence inside the scroll range: no clamping occurs. *)
Definition scrollTo (y : Z) (p : Page) : Page := set_pageYOffset y p.

(** [Math.floor(y * 0.85)]. On the integer offsets of the model the
    double product has the floor of the exact [85 * y / 100] (the
    relative error of the constant and of the rounding stays far below
    the distance [1/20] to the next integer for any offset below
    [2^45]). *)
Definition floor_085 (y : Z) : Z := 85 * y / 100.

(** One call of [smoothScrollToTop]: the page after it, and whether it
    asked [requestAnimationFrame] for another call. *)
Definition smoothScrollToTop (p : Page) : Page * bool :=
  let Y_TopValve :=
    js_or (pageYOffset p) (js_or (body_scrollTop p) (documentElement_scrollTop p)) in
  if 1 <? Y_TopValve then
    (scrollTo (floor_085 Y_TopValve) p, true)
  else
    (scrollTo 0 p, false).


End SmoothScroll.

(** ** The language badge of [mounted] *)

Module CodeLabel.

(** [A]..[Z] to [a]..[z], every other byte unchanged. *)
Definition lower_byte (c : Ascii.ascii) : Ascii.ascii :=
  let n := Ascii.nat_of_ascii c in
  if (65 <=? n)%nat && (n <=? 90)%nat then Ascii.ascii_of_nat (n + 32) else c.

Fixpoint ascii_lower (s : string) : string :=
  match s with
  | EmptyString => EmptyString
  | String c s => String (lower_byte c) (ascii_lower s)
  end.

Fixpoint ascii_only (s : string) : bool :=
  match s with
  | EmptyString => true
  | String c s => (Ascii.nat_of_ascii c <? 128)%nat && ascii_only s
  end.

(** What the model takes for granted of [String.prototype.toLowerCase]:
    its result on ASCII strings. (Outside ASCII it follows the Unicode
    case mapping, which is not modelled.) *)
Definition lowers_ascii (toLowerCase : string → string) : Prop :=
  ∀ s, ascii_only s = true → toLowerCase s = ascii_lower s.

(** [var map = { ... }], the pretty language names. *)
Definition map : list (string * string) :=
  [ ("js", "JavaScript"); ("javascript", "JavaScript");
    ("ts", "TypeScript"); ("typescript", "TypeScript");
    ("py", "Python"); ("python", "Python");
    ("c", "C"); ("cpp", "C++"); ("c++", "C++");
    ("cs", "C#"); ("csharp", "C#");
    ("html", "HTML"); ("xml", "XML"); ("json", "JSON");
    ("yml", "YAML"); ("yaml", "YAML");
    ("sh", "Shell"); ("bash", "Bash"); ("shell", "Shell");
    ("go", "Go"); ("golang", "Go"); ("rb", "Ruby"); ("ruby", "Ruby");
    ("rs", "Rust"); ("rust", "Rust");
    ("java", "Java"); ("kt", "Kotlin"); ("kotlin", "Kotlin");
    ("php", "PHP"); ("sql", "SQL"); ("md", "Markdown"); ("markdown", "Markdown");
    ("swift", "Swift"); ("scala", "Scala") ].

(** The properties an object literal inherits from [Object.prototype];
    all of them are functions or objects, hence truthy. *)
Definition Object_prototype : list string :=
  [ "constructor"; "__defineGetter__"; "__defineSetter__"; "hasOwnProperty";
    "__lookupGetter__"; "__lookupSetter__"; "isPrototypeOf";
    "propertyIsEnumerable"; "toString"; "valueOf"; "__proto__";
    "toLocaleString" ].

(** What ends up as the badge's [textContent]: a string, or the string
    conversion of a member of [Object.prototype]. *)
Inductive Label :=
| Text (s : string)
| Inherited (name : string).

(** [map[key]]: an own property, else an inherited one, else
    [undefined]. *)
Definition map_get (key : string) : option Label :=
  match List.find (λ kv, String.eqb kv.1 key) map with
  | Some kv => Some (Text kv.2)
  | None =>
      if existsb (String.eqb key) Object_prototype
      then Some (Inherited key) else None
  end.

(** The predicate of [classes.find]:
    [c !== 'highlight' && c !== 'figure' && c.indexOf('highlight') !== 0]. *)
Definition is_lang (c : string) : bool :=
  negb (String.eqb c "highlight") && negb (String.eqb c "figure")
  && negb (String.prefix "highlight" c).

(** [classes.find(...) || ''], [classes] being what [split] returned. *)
Definition lang_of (classes : list string) : string :=
  default EmptyString (List.find is_lang classes).

(** [map[String(lang).toLowerCase()] || lang] *)
Definition pretty (toLowerCase : string → string) (lang : string) : Label :=
  default (Text lang) (map_get (toLowerCase lang)).

(** The badge appended to the figure, if any: [if (lang) { ... }]. *)
Definition langBadge (toLowerCase : string → string) (classes : list string)
    : option Label :=
  let lang := lang_of classes in
  if String.eqb lang EmptyString then None else Some (pretty toLowerCase lang).

End CodeLabel.

(** * Properties *)

(** ** Class lists *)

Module ClassListFacts.

Import ClassList.

Lemma elem_of_add c d cl : d ∈ add c cl ↔ d = c ∨ d ∈ cl.
Proof.
  unfold add. rewrite elem_of_union, elem_of_singleton. tauto.
Qed.

Lemma elem_of_remove c d cl : d ∈ remove c cl ↔ d ≠ c ∧ d ∈ cl.
Proof.
  unfold remove. rewrite elem_of_difference, elem_of_singleton. tauto.
Qed.

Lemma contains_true c cl : contains c cl = true ↔ c ∈ cl.
Proof. unfold contains. apply bool_decide_eq_true. Qed.

Lemma contains_false c cl : contains c cl = false ↔ c ∉ cl.
Proof. unfold contains. apply bool_decide_eq_false. Qed.

End ClassListFacts.

(** ** The topic bar *)

Module TopicBarFacts.

Import ClassList ClassListFacts TopicBar Pages.

Lemma elem_of_removes rs m cl : m ∈ removes rs cl ↔ (m ∉ rs) ∧ m ∈ cl.
Proof.
  induction rs as [|r rs IH]; simpl.
  - rewrite elem_of_nil. tauto.
  - rewrite elem_of_remove, IH, elem_of_cons. tauto.
Qed.

Lemma mem_after_spec a rs cl m :
  m ∈ add a (removes rs cl) ↔ mem_after a rs (bool_decide (m ∈ cl)) m = true.
Proof.
  unfold mem_after.
  rewrite elem_of_add, elem_of_removes, orb_true_iff, andb_true_iff,
    negb_true_iff, bool_decide_eq_true, String.eqb_eq.
  assert (existsb (String.eqb m) rs = false ↔ m ∉ rs) as ->; [|tauto].
  rewrite <- not_true_iff_false, existsb_exists.
  split; intros H.
  - intros Hin. apply H. exists m. rewrite String.eqb_eq.
    split; [by apply list_elem_of_In|done].
  - intros (x & Hin & Heq). apply String.eqb_eq in Heq. subst x.
    apply H. by apply list_elem_of_In.
Qed.

Lemma markers_on_after a rs cl :
  markers_on (add a (removes rs cl))
  = List.filter (λ m, mem_after a rs (bool_decide (m ∈ cl)) m) markers.
Proof.
  unfold markers_on. induction markers as [|m ms IH]; [done|].
  rewrite filter_cons. simpl. rewrite <- IH.
  destruct (mem_after a rs _ m) eqn:E.
  - apply mem_after_spec in E. by rewrite decide_True.
  - rewrite decide_False; [done|]. rewrite mem_after_spec. congruence.
Qed.

Lemma postTopic_set cl p : postTopic (set_postTopic cl p) = cl.
Proof. reflexivity. Qed.

(** Evaluate the marker filter, the class list before the call being
    known only through the memberships in the context. *)
Ltac eval_markers :=
  unfold markers; cbn [List.filter];
  repeat match goal with
         | H : ?m ∈ ?cl |- context [bool_decide (?m ∈ ?cl)] =>
             rewrite (bool_decide_eq_true_2 _ H)
         | H : ?m ∉ ?cl |- context [bool_decide (?m ∈ ?cl)] =>
             rewrite (bool_decide_eq_false_2 _ H)
         end;
  repeat match goal with
         | |- context [bool_decide (?m ∈ ?cl)] =>
             generalize (bool_decide (m ∈ cl)); intro
         end;
  vm_compute; try reflexivity.

(** The class list each branch of [showTopic] produces. *)
Lemma showTopic_hidden evt p :
  pageYOffset p <= threshold p →
  postTopic (showTopic evt p)
  = add hidden (removes [immediately; show; switch; tips; flash] (postTopic p)).
Proof.
  intros H. unfold showTopic.
  destruct (Z.ltb_spec (threshold p) (pageYOffset p));
    [lia|reflexivity].
Qed.

Lemma showTopic_zero_tips e p :
  threshold p < pageYOffset p →
  beforeOffsetY e - pageYOffset p = 0 →
  tips ∈ postTopic p →
  postTopic (showTopic (Some e) p)
  = add flash (removes [tips; immediately; show; switch; hidden] (postTopic p)).
Proof.
  intros Hth Hd Ht. unfold showTopic.
  destruct (Z.ltb_spec (threshold p) (pageYOffset p));
    [|lia].
  simpl. rewrite Hd. simpl.
  rewrite (proj2 (contains_true _ _)); [reflexivity|].
  rewrite !elem_of_remove. repeat split; done.
Qed.

Lemma showTopic_zero_no_tips e p :
  threshold p < pageYOffset p →
  beforeOffsetY e - pageYOffset p = 0 →
  tips ∉ postTopic p →
  postTopic (showTopic (Some e) p)
  = add immediately (removes [immediately; show; switch; hidden] (postTopic p)).
Proof.
  intros Hth Hd Ht. unfold showTopic.
  destruct (Z.ltb_spec (threshold p) (pageYOffset p));
    [|lia].
  simpl. rewrite Hd. simpl.
  rewrite (proj2 (contains_false _ _)); [reflexivity|].
  rewrite !elem_of_remove. tauto.
Qed.

Lemma showTopic_up_far e p :
  threshold p < pageYOffset p →
  0 < beforeOffsetY e - pageYOffset p →
  innerHeight p * 2 < pageYOffset p →
  postTopic (showTopic (Some e) p)
  = add tips (removes [flash; switch; show; immediately; hidden] (postTopic p)).
Proof.
  intros Hth Hd Hv. unfold showTopic.
  destruct (Z.ltb_spec (threshold p) (pageYOffset p));
    [|lia].
  simpl.
  destruct (Z.eqb_spec (beforeOffsetY e - pageYOffset p) 0); [lia|].
  destruct (Z.ltb_spec 0 (beforeOffsetY e - pageYOffset p)); [|lia].
  destruct (Z.ltb_spec (innerHeight p * 2) (pageYOffset p)); [|lia].
  reflexivity.
Qed.

Lemma showTopic_up_near e p :
  threshold p < pageYOffset p →
  0 < beforeOffsetY e - pageYOffset p →
  pageYOffset p <= innerHeight p * 2 →
  postTopic (showTopic (Some e) p)
  = add switch (removes [flash; tips; show; immediately; hidden] (postTopic p)).
Proof.
  intros Hth Hd Hv. unfold showTopic.
  destruct (Z.ltb_spec (threshold p) (pageYOffset p));
    [|lia].
  simpl.
  destruct (Z.eqb_spec (beforeOffsetY e - pageYOffset p) 0); [lia|].
  destruct (Z.ltb_spec 0 (beforeOffsetY e - pageYOffset p)); [|lia].
  destruct (Z.ltb_spec (innerHeight p * 2) (pageYOffset p)); [lia|].
  reflexivity.
Qed.

Lemma showTopic_down evt p :
  threshold p < pageYOffset p →
  (∀ e, evt = Some e → beforeOffsetY e - pageYOffset p < 0) →
  postTopic (showTopic evt p)
  = add show (removes [flash; tips; switch; immediately; hidden] (postTopic p)).
Proof.
  intros Hth Hd. unfold showTopic.
  destruct (Z.ltb_spec (threshold p) (pageYOffset p));
    [|lia].
  destruct evt as [e|]; simpl; [|reflexivity].
  specialize (Hd e eq_refl). unfold JsNum.strict_ne. simpl.
  destruct (Z.eqb_spec (beforeOffsetY e - pageYOffset p) 0); [lia|].
  destruct (Z.ltb_spec 0 (beforeOffsetY e - pageYOffset p)); [lia|].
  reflexivity.
Qed.

(** Outside the zero-delta branch entered with the flash marker on and
    the tip marker off, a call of [showTopic] leaves exactly one state
    marker; in that one case it leaves two. *)
Lemma showTopic_marker_count evt p :
  length (markers_on (postTopic (showTopic evt p)))
  = if bool_decide (threshold p < pageYOffset p
                    ∧ beforeOffsetY <$> evt = Some (pageYOffset p)
                    ∧ flash ∈ postTopic p ∧ tips ∉ postTopic p)
    then 2%nat else 1%nat.
Proof.
  destruct (Z.lt_ge_cases (threshold p) (pageYOffset p))
    as [Hth|Hth].
  2:{ rewrite bool_decide_eq_false_2 by lia.
      rewrite showTopic_hidden, markers_on_after by lia. eval_markers. }
  destruct evt as [e|].
  2:{ rewrite bool_decide_eq_false_2 by (simpl; intuition congruence).
      rewrite showTopic_down, markers_on_after by done. eval_markers. }
  destruct (Z.lt_trichotomy (beforeOffsetY e - pageYOffset p) 0) as [Hd|[Hd|Hd]].
  - rewrite bool_decide_eq_false_2
      by (simpl; intros (_ & [= ?] & _); lia).
    rewrite showTopic_down, markers_on_after; [eval_markers|done|].
    by intros ? [= <-].
  - destruct (decide (tips ∈ postTopic p)) as [Ht|Ht].
    + rewrite bool_decide_eq_false_2 by tauto.
      rewrite showTopic_zero_tips, markers_on_after by done. eval_markers.
    + rewrite showTopic_zero_no_tips, markers_on_after by done.
      destruct (decide (flash ∈ postTopic p)) as [Hf|Hf].
      * rewrite bool_decide_eq_true_2; [eval_markers|].
        repeat split; try done. simpl. f_equal. lia.
      * rewrite bool_decide_eq_false_2 by tauto. eval_markers.
  - rewrite bool_decide_eq_false_2
      by (simpl; intros (_ & [= ?] & _); lia).
    destruct (Z.lt_ge_cases (innerHeight p * 2) (pageYOffset p)).
    + rewrite showTopic_up_far, markers_on_after by done. eval_markers.
    + rewrite showTopic_up_near, markers_on_after by done. eval_markers.
Qed.

(** C2 (exclusivity of the state markers), evaluated on three batches:
    an upward scroll from 3000 to 2500 shows the tip, a batch without
    movement turns it into the flash variant, and a second batch
    without movement adds [immediately-show] while the flash marker is
    still on: the topic bar ends with two state markers, not one. *)
Theorem showTopic_two_markers_after_flash :
  markers_on (postTopic (transitions (post_page 0 {[ hidden ]})
    [(params 1 3000, 2500); (params 2 2500, 2500); (params 3 2500, 2500)]))
  = [immediately; flash].
Proof. vm_compute. reflexivity. Qed.

(** C4 (upward scroll): past the threshold and with a positive delta,
    the bar carries the scroll-to-top tip marker alone when the offset
    exceeds twice the viewport height, and the switch marker alone
    otherwise. *)
Theorem showTopic_scrolled_up e p :
  pageYOffset p > threshold p →
  beforeOffsetY e - pageYOffset p > 0 →
  (pageYOffset p > innerHeight p * 2 →
     markers_on (postTopic (showTopic (Some e) p)) = [tips])
  ∧ (pageYOffset p <= innerHeight p * 2 →
     markers_on (postTopic (showTopic (Some e) p)) = [switch]).
Proof.
  intros Hth Hd. split; intros Hv.
  - rewrite showTopic_up_far, markers_on_after by lia. eval_markers.
  - rewrite showTopic_up_near, markers_on_after by lia. eval_markers.
Qed.

Lemma showTopic_scrolled_up_witness :
  markers_on (postTopic (showTopic (Some (params 1 3000))
                           (post_page 2500 {[ show ]}))) = [tips]
  ∧ markers_on (postTopic (showTopic (Some (params 1 1800))
                             (post_page 1500 {[ tips ]}))) = [switch].
Proof.
  split.
  - apply (showTopic_scrolled_up (params 1 3000) (post_page 2500 {[ show ]}));
      vm_compute; congruence.
  - apply (showTopic_scrolled_up (params 1 1800) (post_page 1500 {[ tips ]}));
      vm_compute; congruence.
Defined.

(** The zero-delta branch, past the threshold: a bar showing the tip
    marker loses it and gets the flash marker, which is then its only
    state marker; a bar without the tip marker gets [immediately-show],
    still has no tip marker, and keeps the flash marker exactly when it
    had it. *)
Lemma showTopic_zero_delta_markers e p :
  pageYOffset p > threshold p →
  beforeOffsetY e - pageYOffset p = 0 →
  let cl' := postTopic (showTopic (Some e) p) in
  (tips ∈ postTopic p →
     flash ∈ cl' ∧ (tips ∉ cl') ∧ markers_on cl' = [flash])
  ∧ (tips ∉ postTopic p →
     immediately ∈ cl' ∧ (tips ∉ cl')
     ∧ markers_on cl'
       = immediately :: (if decide (flash ∈ postTopic p) then [flash] else [])).
Proof.
  intros Hth Hd cl'. subst cl'. split; intros Ht.
  - rewrite showTopic_zero_tips by (done || lia).
    rewrite !mem_after_spec, markers_on_after.
    rewrite (bool_decide_eq_true_2 _ Ht).
    split; [by vm_compute|]. split; [by vm_compute|]. eval_markers.
  - rewrite showTopic_zero_no_tips by (done || lia).
    rewrite !mem_after_spec, markers_on_after.
    rewrite (bool_decide_eq_false_2 _ Ht).
    split; [by vm_compute|]. split; [by vm_compute|].
    case_decide; eval_markers.
Qed.

(** C5 (flash instead of tip), evaluated where it fails: a bar in the
    flash state (the tip marker off, the flash marker on), past the
    threshold, with a zero delta. The first half of the claim holds: a
    bar showing the tip goes to the flash marker alone. On the bar in the
    flash state the call adds [immediately-show] but leaves the flash
    marker on: the bar is not in the immediately-shown state, it carries
    two state markers. *)
Theorem showTopic_no_movement_after_flash :
  (pageYOffset (post_page 2500 {[ flash ]}) > threshold (post_page 2500 {[ flash ]})
   ∧ beforeOffsetY (params 1 2500) - pageYOffset (post_page 2500 {[ flash ]}) = 0
   ∧ tips ∉ postTopic (post_page 2500 {[ flash ]}))
  ∧ markers_on (postTopic (showTopic (Some (params 1 2500))
                             (post_page 2500 {[ tips ]}))) = [flash]
  ∧ markers_on (postTopic (showTopic (Some (params 1 2500))
                             (post_page 2500 {[ flash ]}))) = [immediately; flash].
Proof.
  split; [|split; vm_compute; reflexivity].
  split; [vm_compute; congruence|]. split; [reflexivity|].
  unfold post_page, tips, flash. simpl. rewrite elem_of_singleton. discriminate.
Qed.

End TopicBarFacts.

(** ** The table-of-contents tracker *)

Module TocFacts.

Import Toc Pages.

(** *** What a pass leaves alone *)

Lemma same_layout_refl p : same_layout p p.
Proof. by split. Qed.

Lemma same_layout_trans p q r : same_layout p q → same_layout q r → same_layout p r.
Proof. intros [] []. split; congruence. Qed.

Lemma same_layout_sym p q : same_layout p q → same_layout q p.
Proof. intros []. by split. Qed.

Lemma shape_alter f i ls : shape (alter (on_classList f) i ls) = shape ls.
Proof.
  revert i. induction ls as [|l ls IH]; intros [|i]; simpl; try done.
  f_equal. apply IH.
Qed.

Lemma shape_clear_active ls : shape (clear_active ls) = shape ls.
Proof.
  unfold clear_active. destruct (query_active ls); [apply shape_alter|done].
Qed.

(** The link a selector on the href finds is determined by the shape. *)
Lemma query_href_shape k ls :
  prod_map id (λ l, (href l, l_offsetTop l)) <$> query_href k ls
  = list_find (λ s, s.1 = Some k) (shape ls).
Proof.
  unfold query_href, shape. by rewrite list_find_fmap.
Qed.

Lemma query_href_same_shape k ls ls' i l :
  shape ls = shape ls' →
  query_href k ls = Some (i, l) →
  ∃ l', query_href k ls' = Some (i, l') ∧ l_offsetTop l' = l_offsetTop l.
Proof.
  intros Hs Hq.
  pose proof (query_href_shape k ls) as H1.
  pose proof (query_href_shape k ls') as H2.
  rewrite Hs, <- H2, Hq in H1. simpl in H1.
  destruct (query_href k ls') as [[i' l']|]; [|done].
  simpl in H1. injection H1 as -> _ ->. eauto.
Qed.

Lemma query_href_alter k f i l ls :
  query_href k ls = Some (i, l) →
  query_href k (alter (on_classList f) i ls) = Some (i, on_classList f l).
Proof.
  unfold query_href. rewrite !list_find_Some.
  intros (Hi & Hl & Hlt). split; [|split].
  - by rewrite list_lookup_alter_eq, Hi.
  - done.
  - intros j y Hj Hji. rewrite list_lookup_alter_ne in Hj by lia. eauto.
Qed.

Lemma linked_same_shape ls ls' h :
  shape ls = shape ls' → linked ls h → linked ls' h.
Proof.
  intros Hs [[i l] Hq].
  destruct (query_href_same_shape _ _ _ _ _ Hs Hq) as (l' & Hq' & _).
  by eexists.
Qed.

Lemma next_active_cases act cur :
  next_active act cur = cur ∨ act = Some (next_active act cur).
Proof.
  unfold next_active. destruct act as [a|]; [|by left].
  destruct (_ <=? _); [by left|by right].
Qed.

Lemma getElementById_id id p h : getElementById id p = Some h → h_id h = id.
Proof.
  unfold getElementById. intros H.
  destruct (list_find _ _) as [[i x]|] eqn:E; [|done].
  simpl in H. injection H as ->. by apply list_find_Some in E as (_ & ? & _).
Qed.

Lemma contentTocList_spec o p :
  o ∈ contentTocList p ↔
  ∃ link id, link ∈ toc_links p ∧ href link = Some id ∧ o = getElementById id p.
Proof.
  unfold contentTocList. rewrite list_elem_of_In, in_flat_map. split.
  - intros (link & Hin & Ho). exists link.
    destruct (href link) as [id|]; [|by destruct Ho].
    exists id. apply list_elem_of_In in Hin, Ho.
    apply list_elem_of_singleton in Ho. done.
  - intros (link & id & Hin & Hh & ->). exists link.
    rewrite Hh. split; [by apply list_elem_of_In|by left].
Qed.

Lemma contentTocList_linked p h :
  Some h ∈ contentTocList p → linked (toc_links p) h.
Proof.
  rewrite contentTocList_spec. intros (link & id & Hin & Hh & Hg).
  symmetry in Hg. apply getElementById_id in Hg.
  unfold linked, query_href. rewrite Hg.
  by apply (list_find_elem_of _ _ link).
Qed.

Lemma contentTocList_same_layout p q :
  same_layout p q → contentTocList p = contentTocList q.
Proof.
  intros [_ He Hs _]. unfold contentTocList, getElementById. rewrite He.
  unfold shape in Hs. revert Hs. generalize (toc_links q).
  induction (toc_links p) as [|l ls IH]; intros [|l' ls'] Hs; try done.
  simpl in *. injection Hs as Hh _ Hs. rewrite Hh. f_equal. by apply IH.
Qed.

(** *** The loop *)

Lemma toc_loop_layout scrollTop rest act p :
  same_layout p (page_of (toc_loop scrollTop rest act p)).
Proof.
  revert act p. induction rest as [|[cur|] rest IH]; intros act p; simpl;
    try apply same_layout_refl.
  destruct (below_fold scrollTop cur); [apply IH|].
  destruct (query_href _ _) as [[i l]|] eqn:Hq; simpl.
  - eapply same_layout_trans; [|apply IH].
    split; simpl; try done.
    by rewrite shape_alter, shape_clear_active.
  - split; simpl; try done. by rewrite shape_clear_active.
Qed.

(** The loop computes [scan]: as every heading in [contentTocList] was
    found through a link, the selector on the href never misses, and
    the only way to throw is an unresolved entry. *)
Lemma toc_loop_value scrollTop rest act p :
  (∀ h, Some h ∈ rest → linked (toc_links p) h) →
  (∀ a, act = Some a → linked (toc_links p) a) →
  value_of (toc_loop scrollTop rest act p) = scan scrollTop rest act.
Proof.
  revert act p. induction rest as [|[cur|] rest IH]; intros act p Hrest Hact;
    simpl; try done.
  destruct (below_fold scrollTop cur).
  { apply IH; [|done]. intros h Hh. apply Hrest. by right. }
  assert (linked (toc_links p) (next_active act cur)) as Hl.
  { destruct (next_active_cases act cur) as [->|E]; [|by apply Hact].
    apply Hrest. by left. }
  eapply linked_same_shape in Hl; [|symmetry; apply shape_clear_active].
  destruct Hl as [[i l] Hq]. rewrite Hq. simpl.
  apply IH; simpl.
  - intros h Hh. eapply linked_same_shape; [|apply Hrest; by right].
    by rewrite shape_alter, shape_clear_active.
  - intros a [= <-]. eexists. by apply query_href_alter.
Qed.

Lemma toc_pass_value p :
  value_of (toc_pass p) = scan (pageYOffset p) (contentTocList p) None.
Proof.
  apply toc_loop_value; [apply contentTocList_linked|done].
Qed.

Lemma toc_pass_layout p : same_layout p (page_of (toc_pass p)).
Proof. apply toc_loop_layout. Qed.

Lemma toc_pass_same_layout p q :
  same_layout p q → value_of (toc_pass p) = value_of (toc_pass q).
Proof.
  intros H. rewrite !toc_pass_value.
  by rewrite (contentTocList_same_layout p q H), (same_pageYOffset _ _ H).
Qed.

Lemma scan_throws scrollTop rest act :
  scan scrollTop rest act = None ↔ None ∈ rest.
Proof.
  revert act. induction rest as [|[cur|] rest IH]; intros act; simpl.
  - rewrite elem_of_nil. split; [done|tauto].
  - rewrite elem_of_cons.
    destruct (below_fold scrollTop cur); rewrite IH; split;
      [tauto|intros [|]; done|tauto|intros [|]; done].
  - rewrite elem_of_cons. split; [by left|done].
Qed.

(** *** Unresolved headings *)

(** C3 (unresolved heading), refuted: on a page whose second TOC link
    points at an id no element carries, the pass does not skip the
    entry: it throws, after having marked the first link. *)
Lemma unresolved_heading_throws :
  getElementById "gone" dangling_page = None
  ∧ value_of (toc_pass dangling_page) = None
  ∧ active_links (page_of (toc_pass dangling_page)) = [0%nat].
Proof. vm_compute. repeat split; reflexivity. Qed.

Lemma toc_loop_throws scrollTop rest act p :
  None ∈ rest → value_of (toc_loop scrollTop rest act p) = None.
Proof.
  revert act p. induction rest as [|[cur|] rest IH]; intros act p Hin; simpl.
  - by apply elem_of_nil in Hin.
  - apply elem_of_cons in Hin as [Hin|Hin]; [done|].
    destruct (below_fold scrollTop cur); [by apply IH|].
    destruct (query_href _ _) as [[i l]|]; [by apply IH|done].
  - done.
Qed.

(** C3, as the code has it: when some TOC link with an href has a
    target id that no element carries, the entry is not treated as
    absent: the pass does not complete, it throws (at the latest when it
    reads the offset of the missing heading). *)
Theorem unresolved_heading_makes_pass_throw p link k :
  link ∈ toc_links p → href link = Some k → getElementById k p = None →
  value_of (toc_pass p) = None.
Proof.
  intros Hin Hh Hg. apply toc_loop_throws, contentTocList_spec.
  by exists link, k.
Qed.

Lemma unresolved_heading_makes_pass_throw_witness :
  value_of (toc_pass dangling_page) = None.
Proof.
  apply (unresolved_heading_makes_pass_throw dangling_page (link "gone" 24) "gone").
  - apply list_elem_of_In. right. left. reflexivity.
  - reflexivity.
  - vm_compute. reflexivity.
Defined.

(** *** The scenario of the specification *)

(** C6 (end-to-end scenario): headings at 0, 800 and 1600, spacing 60,
    scroll offset 850. The pass ends with the heading at 800 active and
    its link, the second, the only marked one; the heading at 1600 is
    beyond [850 + 30], and the heading at 800 replaces the one at 0
    because [800 + 60 >= 0 - 60]. *)
Theorem three_sections_active :
  value_of (toc_pass three_sections) = Some (Some (heading "usage" 800))
  ∧ active_links (page_of (toc_pass three_sections)) = [1%nat]
  ∧ below_fold 850 (heading "faq" 1600) = true
  ∧ below_fold 850 (heading "usage" 800) = false
  ∧ next_active (Some (heading "intro" 0)) (heading "usage" 800)
    = heading "usage" 800
  ∧ 800 + spacing >= 0 - spacing.
Proof. vm_compute. repeat split; (reflexivity || congruence). Qed.

(** *** The panel scroll *)

(** The body of the loop leaves the heading it has just made active
    [settled]. *)
Lemma toc_loop_settled scrollTop rest act p a p' :
  (∀ a0, act = Some a0 → settled p a0) →
  toc_loop scrollTop rest act p = Normal (Some a) p' →
  settled p' a.
Proof.
  revert act p. induction rest as [|[cur|] rest IH]; intros act p Hact; simpl.
  - intros [= -> ->]. by apply Hact.
  - destruct (below_fold scrollTop cur); [by apply IH|].
    destruct (query_href _ _) as [[i l]|] eqn:Hq; [|done].
    apply IH. intros a0 [= <-]. exists i, (on_classList (ClassList.add activeClassName) l).
    simpl. split; [by apply query_href_alter|]. split; [|done].
    apply ClassListFacts.elem_of_add. by left.
  - done.
Qed.

(** C7 (panel auto-scroll), refuted at the boundary: with the active
    link at 340 in a panel 400 high, the link's offset does not exceed
    [400 - 60], yet the panel is scrolled to [340 + 100 - 400 = 40]
    and not reset to 0. *)
Lemma panel_scroll_at_boundary :
  value_of (toc_pass boundary_page) = Some (Some (heading "intro" 0))
  ∧ query_href "intro" (toc_links boundary_page) = Some (0%nat, link "intro" 340)
  ∧ ¬ (340 > toc_height boundary_page - spacing)
  ∧ toc_scrollTo (page_of (toc_pass boundary_page)) = 40.
Proof. vm_compute. repeat split; (reflexivity || congruence). Qed.

(** C7, as the code has it: after a pass that selects an active
    heading, the panel was last scrolled for the link [direc] of that
    heading: to [direc.offsetTop + 100 - height] when
    [direc.offsetTop >= height - spacing], and to 0 otherwise. *)
Theorem panel_scroll_follows_active p a p' :
  toc_pass p = Normal (Some a) p' →
  ∃ i direc, query_href (h_id a) (toc_links p) = Some (i, direc)
    ∧ (l_offsetTop direc >= toc_height p - spacing →
         toc_scrollTo p' = l_offsetTop direc + 100 - toc_height p)
    ∧ (l_offsetTop direc < toc_height p - spacing → toc_scrollTo p' = 0).
Proof.
  intros Hpass.
  pose proof (toc_pass_layout p) as Hlay. rewrite Hpass in Hlay. simpl in Hlay.
  apply toc_loop_settled in Hpass; [|done].
  destruct Hpass as (i & l' & Hq & _ & Hs).
  destruct (query_href_same_shape _ _ (toc_links p) _ _
              (eq_sym (same_shape _ _ Hlay)) Hq) as (l & Hq' & Hoff).
  exists i, l. split; [done|].
  rewrite Hs, <- Hoff, <- (same_toc_height _ _ Hlay). unfold panel_target.
  destruct (Z.leb_spec (toc_height p - spacing) (l_offsetTop l)); split; lia.
Qed.

Lemma panel_scroll_follows_active_witness :
  ∃ i direc,
    query_href "intro" (toc_links boundary_page) = Some (i, direc)
    ∧ (l_offsetTop direc >= toc_height boundary_page - spacing →
         toc_scrollTo (page_of (toc_pass boundary_page))
         = l_offsetTop direc + 100 - toc_height boundary_page)
    ∧ (l_offsetTop direc < toc_height boundary_page - spacing →
         toc_scrollTo (page_of (toc_pass boundary_page)) = 0).
Proof.
  apply (panel_scroll_follows_active boundary_page (heading "intro" 0)
           (page_of (toc_pass boundary_page))).
  vm_compute. reflexivity.
Defined.

(** *** Repeated passes *)

Lemma passes_layout n p : same_layout p (passes n p).
Proof.
  induction n as [|n IH]; simpl; [apply same_layout_refl|].
  eapply same_layout_trans; [apply IH|apply toc_pass_layout].
Qed.

(** C8 (idempotence of the choice): whatever number of passes ran
    before at the same scroll offset and heading layout, the next pass
    ends with the same active heading (or throws alike): the choice is
    [scan] of the resolved headings and the scroll offset, and takes
    nothing from the markers or the panel scroll earlier passes left. *)
Theorem repeated_pass_same_active n p :
  value_of (toc_pass (passes n p)) = value_of (toc_pass p)
  ∧ value_of (toc_pass p) = scan (pageYOffset p) (contentTocList p) None.
Proof.
  split; [|apply toc_pass_value].
  symmetry. apply toc_pass_same_layout, passes_layout.
Qed.

(** *** No candidate *)

Lemma toc_loop_no_candidate scrollTop rest act p :
  Forall (λ o, ∃ h, o = Some h ∧ h_offsetTop h > scrollTop + spacing / 2) rest →
  toc_loop scrollTop rest act p = Normal act p.
Proof.
  induction 1 as [|o rest (h & -> & Hh) _ IH]; simpl; [done|].
  unfold below_fold. destruct (Z.ltb_spec (scrollTop + spacing / 2) (h_offsetTop h));
    [done|lia].
Qed.

(** C9 (no candidate, no change): when every heading of the TOC lies
    beyond [scrollOffset + spacing/2], the pass returns with no active
    heading and the page exactly as it was: no marker and no panel
    scroll is touched. *)
Theorem no_candidate_no_change p :
  Forall (λ o, ∃ h, o = Some h ∧ h_offsetTop h > pageYOffset p + spacing / 2)
         (contentTocList p) →
  toc_pass p = Normal None p.
Proof. apply toc_loop_no_candidate. Qed.

Lemma no_candidate_no_change_witness :
  toc_pass top_of_page = Normal None top_of_page.
Proof.
  apply (no_candidate_no_change top_of_page).
  repeat constructor; eexists; (split; [reflexivity|vm_compute; reflexivity]).
Defined.

(** *** Sorted headings *)

Lemma scan_sorted scrollTop hs act :
  StronglySorted Z.le (h_offsetTop <$> hs) →
  (∀ a, act = Some a → Forall (λ h, h_offsetTop a <= h_offsetTop h) hs) →
  scan scrollTop (Some <$> hs) act
  = Some (match last_candidate scrollTop hs with
          | Some h => Some h
          | None => act
          end).
Proof.
  unfold last_candidate.
  revert act. induction hs as [|h hs IH]; intros act Hs Hact; [done|].
  simpl in Hs. apply StronglySorted_inv in Hs as [Hs Hh].
  simpl. rewrite filter_cons. unfold below_fold.
  destruct (Z.ltb_spec (scrollTop + spacing / 2) (h_offsetTop h)).
  - rewrite decide_False by lia. apply IH; [done|].
    intros a Ha. specialize (Hact a Ha). by apply Forall_cons in Hact as [_ ?].
  - rewrite decide_True by lia.
    assert (next_active act h = h) as ->.
    { unfold next_active. destruct act as [a|]; [|done].
      specialize (Hact a eq_refl). apply Forall_cons in Hact as [Ha _].
      destruct (Z.leb_spec (h_offsetTop a - spacing) (h_offsetTop h + spacing));
        [done|]. unfold spacing in *. lia. }
    rewrite IH; [|done|].
    + rewrite last_cons. by destruct (last _).
    + intros a [= <-]. exact (proj1 (Forall_fmap _ _ _) Hh).
Qed.

(** C10 (sorted headings): when the resolved headings are in
    nondecreasing order of offset, the hysteresis test never rejects a
    candidate and the pass chooses exactly the last candidate. *)
Theorem sorted_pass_is_last_candidate p hs :
  contentTocList p = Some <$> hs →
  Sorted Z.le (h_offsetTop <$> hs) →
  value_of (toc_pass p) = Some (last_candidate (pageYOffset p) hs)
  ∧ ∀ a cur, h_offsetTop a <= h_offsetTop cur → next_active (Some a) cur = cur.
Proof.
  intros Hc Hs. split.
  - rewrite toc_pass_value, Hc, scan_sorted; [by destruct (last_candidate _ _)| |done].
    apply Sorted_StronglySorted; [|done]. intros x y z. apply Z.le_trans.
  - intros a cur Hle. unfold next_active.
    destruct (Z.leb_spec (h_offsetTop a - spacing) (h_offsetTop cur + spacing));
      [done|]. unfold spacing in *. lia.
Qed.

Lemma sorted_pass_is_last_candidate_witness :
  value_of (toc_pass three_sections)
  = Some (last_candidate 850 [heading "intro" 0; heading "usage" 800; heading "faq" 1600])
  ∧ ∀ a cur, h_offsetTop a <= h_offsetTop cur → next_active (Some a) cur = cur.
Proof.
  apply (sorted_pass_is_last_candidate three_sections
           [heading "intro" 0; heading "usage" 800; heading "faq" 1600]).
  - vm_compute. reflexivity.
  - repeat constructor; vm_compute; congruence.
Defined.

End TocFacts.

(** ** The scroll batcher *)

Module ScrollerFacts.

Import Scroller.

Section WithCallbacks.

Variable callbacks : list Callback.

(** The listener never takes the [if (wait) return] exit: [wait] is
    a fresh local of each invocation, so every notification
    allocates its own frame and schedules its own dispatch. *)
Lemma listener_always_schedules event s :
  timers (listener event s)
  = timers s ++ [ {| due := now s + 150; env := length (frames s) |} ]
  ∧ frames (listener event s)
    = frames s ++ [ {| wait := true; f_event := event;
                       f_beforeOffsetY := pageYOffset (page s) |} ]
  ∧ dispatched (listener event s) = dispatched s.
Proof. done. Qed.

Lemma timeout_effect e s :
  (e < length (frames s))%nat →
  length (frames (timeout callbacks e s)) = length (frames s)
  ∧ timers (timeout callbacks e s) = timers s
  ∧ length (dispatched (timeout callbacks e s)) = S (length (dispatched s)).
Proof.
  intros He. unfold timeout.
  destruct (lookup_lt_is_Some_2 _ _ He) as [fr ->].
  destruct (forEach _ _ _); simpl;
    rewrite ?length_alter, length_app; simpl; repeat split; try done; lia.
Qed.

Lemma timeouts_effect tms s :
  Forall (λ tm, (env tm < length (frames s))%nat) tms →
  let s' := foldl (λ s tm, timeout callbacks (env tm) s) s tms in
  length (frames s') = length (frames s)
  ∧ timers s' = timers s
  ∧ length (dispatched s') = (length (dispatched s) + length tms)%nat.
Proof.
  revert s. induction tms as [|tm tms IH]; intros s Hb; simpl.
  { repeat split; try done; lia. }
  apply Forall_cons in Hb as [Htm Hb].
  destruct (timeout_effect (env tm) s Htm) as (Hf & Ht & Hd).
  destruct (IH (timeout callbacks (env tm) s)) as (Hf' & Ht' & Hd').
  { by rewrite Hf. }
  rewrite Hf', Ht', Hd', Hf, Ht, Hd. repeat split; try done; lia.
Qed.

Lemma filter_split {A} (f : A → bool) (l : list A) :
  (length (List.filter f l) + length (List.filter (λ x, negb (f x)) l))%nat
  = length l.
Proof.
  induction l as [|x l IH]; simpl; [done|].
  destruct (f x); simpl; lia.
Qed.

Lemma Forall_filter_bool {A} (P : A → Prop) (f : A → bool) (l : list A) :
  Forall P l → Forall P (List.filter f l).
Proof.
  induction 1 as [|x l Hx _ IH]; simpl; [done|].
  destruct (f x); [by constructor|done].
Qed.

Lemma step_effect s i :
  timers_bound s →
  timers_bound (step callbacks s i)
  ∧ (length (dispatched (step callbacks s i)) + length (timers (step callbacks s i)))%nat
    = (length (dispatched s) + length (timers s)
       + if is_scroll i then 1 else 0)%nat.
Proof.
  unfold timers_bound. intros Hb. destruct i as [event y|dt]; simpl.
  - split; [|rewrite length_app; simpl; lia].
    apply Forall_app. split.
    + eapply Forall_impl; [exact Hb|]. simpl. intros tm. rewrite length_app. simpl. lia.
    + repeat constructor. simpl. rewrite length_app. simpl. lia.
  - match goal with
    | |- context [foldl ?f ?s0 ?tms] =>
        destruct (timeouts_effect tms s0) as (Hf & Ht & Hd)
    end.
    { by apply Forall_filter_bool. }
    rewrite Hf, Ht, Hd. simpl. split.
    + by apply Forall_filter_bool.
    + pose proof (filter_split (is_due (now s + dt)) (timers s)). lia.
Qed.

Lemma run_effect inputs s :
  timers_bound s →
  timers_bound (run callbacks s inputs)
  ∧ (length (dispatched (run callbacks s inputs))
     + length (timers (run callbacks s inputs)))%nat
    = (length (dispatched s) + length (timers s)
       + length (List.filter is_scroll inputs))%nat.
Proof.
  unfold run. revert s. induction inputs as [|i inputs IH]; intros s Hb; simpl.
  { split; [done|lia]. }
  destruct (step_effect s i Hb) as [Hb' Hn].
  destruct (IH _ Hb') as [Hb'' Hn'].
  split; [done|]. rewrite Hn', Hn.
  destruct (is_scroll i); simpl; lia.
Qed.

(** No notification is ever dropped: at any moment, the dispatches
    done and the dispatches pending add up to the number of scroll
    notifications received. *)
Lemma every_notification_dispatches p inputs :
  (length (dispatched (run callbacks (init p) inputs))
   + length (timers (run callbacks (init p) inputs)))%nat
  = length (List.filter is_scroll inputs).
Proof.
  destruct (run_effect inputs (init p)) as [_ H]; [by constructor|].
  rewrite H. simpl. lia.
Qed.

End WithCallbacks.

(** C1 (debounce), evaluated on the wired page: two scroll
    notifications 10 time units apart, at offsets 100 and 200, followed
    by a quiet period. The batcher dispatches twice, once per
    notification, and the second snapshot carries the offset of the
    second notification; no dispatch is left pending. *)
Theorem burst_of_two_dispatches_twice :
  dispatched (run (mounted Pages.three_sections) (init Pages.three_sections)
                [Scroll 1 100; Elapse 10; Scroll 2 200; Elapse 150])
  = [ {| event := 1; beforeOffsetY := 100 |};
      {| event := 2; beforeOffsetY := 200 |} ]
  ∧ timers (run (mounted Pages.three_sections) (init Pages.three_sections)
              [Scroll 1 100; Elapse 10; Scroll 2 200; Elapse 150]) = [].
Proof. vm_compute. split; reflexivity. Qed.

End ScrollerFacts.

(** ** The topic bar: remaining branches and frame *)

Module TopicBarBranches.

Import ClassList ClassListFacts TopicBar Pages TopicBarFacts.

(** At or above the title block ([pageYOffset <= threshold]) the bar is
    hidden whatever the snapshot says, and also without a snapshot: the
    hidden marker is the only state marker left. *)
Theorem showTopic_hides_at_threshold evt p :
  pageYOffset p <= threshold p →
  markers_on (postTopic (showTopic evt p)) = [hidden].
Proof.
  intros H. rewrite showTopic_hidden, markers_on_after by done. eval_markers.
Qed.

Lemma showTopic_hides_at_threshold_witness :
  markers_on (postTopic (showTopic (Some (params 1 900))
                           (post_page 150 {[ tips; flash ]}))) = [hidden].
Proof.
  apply (showTopic_hides_at_threshold (Some (params 1 900))
           (post_page 150 {[ tips; flash ]})).
  vm_compute. congruence.
Defined.

(** Past the threshold, a snapshot with a negative delta (scrolled
    down) leaves [is-show-post-title] as the only state marker; so does
    a call without any snapshot, where [beforeOffsetY] is [undefined],
    the delta is [NaN] and only the last test, [!== 0], succeeds. *)
Theorem showTopic_scrolled_down evt p :
  pageYOffset p > threshold p →
  (∀ e, evt = Some e → beforeOffsetY e - pageYOffset p < 0) →
  markers_on (postTopic (showTopic evt p)) = [show].
Proof.
  intros Hth Hd. rewrite showTopic_down, markers_on_after by (done || lia).
  eval_markers.
Qed.

Lemma showTopic_scrolled_down_witness :
  markers_on (postTopic (showTopic (Some (params 1 2000))
                           (post_page 2500 {[ flash ]}))) = [show]
  ∧ markers_on (postTopic (showTopic None (post_page 2500 {[ tips ]}))) = [show].
Proof.
  split.
  - apply (showTopic_scrolled_down (Some (params 1 2000)) (post_page 2500 {[ flash ]})).
    + vm_compute. congruence.
    + intros e [= <-]. vm_compute. congruence.
  - apply (showTopic_scrolled_down None (post_page 2500 {[ tips ]})).
    + vm_compute. congruence.
    + intros e [=].
Defined.

Lemma showTopic_only_postTopic evt p :
  showTopic evt p = set_postTopic (postTopic (showTopic evt p)) p.
Proof.
  unfold showTopic.
  repeat match goal with
         | |- context [if ?b then _ else _] => destruct b
         end; reflexivity.
Qed.

Lemma elem_of_after_other a rs cl c :
  c ∉ markers → Forall (λ r, r ∈ markers) (a :: rs) →
  c ∈ add a (removes rs cl) ↔ c ∈ cl.
Proof.
  intros Hc Hall. apply Forall_cons in Hall as [Ha Hrs].
  rewrite elem_of_add, elem_of_removes. split.
  - intros [->|[_ ?]]; done.
  - intros Hin. right. split; [|done]. intros Hr.
    apply Hc. by eapply Forall_forall in Hrs.
Qed.

(** Every class a branch adds or removes is one of the six markers. *)
Ltac all_markers :=
  repeat constructor; apply list_elem_of_In; simpl;
  repeat first [left; reflexivity | right].

(** [showTopic] touches nothing but the six state markers of the topic
    bar: every other class of the bar is kept as it was (present or
    absent), and the rest of the page is unchanged. *)
Theorem showTopic_keeps_other_classes evt p c :
  c ∉ markers →
  (c ∈ postTopic (showTopic evt p) ↔ c ∈ postTopic p)
  ∧ showTopic evt p = set_postTopic (postTopic (showTopic evt p)) p.
Proof.
  intros Hc. split; [|apply showTopic_only_postTopic].
  destruct (Z.lt_ge_cases (threshold p) (pageYOffset p)) as [Hth|Hth].
  2:{ rewrite showTopic_hidden by lia. apply elem_of_after_other; [done|all_markers]. }
  destruct evt as [e|].
  2:{ rewrite showTopic_down by done. apply elem_of_after_other; [done|all_markers]. }
  destruct (Z.lt_trichotomy (beforeOffsetY e - pageYOffset p) 0) as [Hd|[Hd|Hd]].
  - rewrite showTopic_down; [|done|by intros ? [= <-]].
    apply elem_of_after_other; [done|all_markers].
  - destruct (decide (tips ∈ postTopic p)) as [Ht|Ht].
    + rewrite showTopic_zero_tips by done.
      apply elem_of_after_other; [done|all_markers].
    + rewrite showTopic_zero_no_tips by done.
      apply elem_of_after_other; [done|all_markers].
  - destruct (Z.lt_ge_cases (innerHeight p * 2) (pageYOffset p)).
    + rewrite showTopic_up_far by done.
      apply elem_of_after_other; [done|all_markers].
    + rewrite showTopic_up_near by done.
      apply elem_of_after_other; [done|all_markers].
Qed.

Lemma showTopic_keeps_other_classes_witness :
  ("post-topic" ∈ postTopic (showTopic (Some (params 1 3000))
                               (post_page 2500 {[ "post-topic"; show ]}))
   ↔ "post-topic" ∈ postTopic (post_page 2500 {[ "post-topic"; show ]}))
  ∧ showTopic (Some (params 1 3000)) (post_page 2500 {[ "post-topic"; show ]})
    = set_postTopic
        (postTopic (showTopic (Some (params 1 3000))
                      (post_page 2500 {[ "post-topic"; show ]})))
        (post_page 2500 {[ "post-topic"; show ]}).
Proof.
  apply (showTopic_keeps_other_classes (Some (params 1 3000))
           (post_page 2500 {[ "post-topic"; show ]}) "post-topic").
  unfold markers, immediately, switch, show, tips, flash, hidden.
  rewrite !elem_of_cons, elem_of_nil. intros H.
  repeat destruct H as [H|H]; try discriminate H. done.
Defined.

End TopicBarBranches.

(** ** The table-of-contents tracker: the choice and the marker *)

Module TocChoice.

Import Toc Pages TocFacts TocMarks.

Lemma scan_chosen scrollTop rest act a :
  scan scrollTop rest act = Some (Some a) →
  act = Some a ∨ (Some a ∈ rest ∧ below_fold scrollTop a = false).
Proof.
  revert act. induction rest as [|[cur|] rest IH]; intros act; simpl.
  - intros [= ->]. by left.
  - destruct (below_fold scrollTop cur) eqn:E; intros H; apply IH in H.
    + destruct H as [?|[? ?]]; [by left|right]. split; [by right|done].
    + destruct H as [[= H]|[? ?]]; [|right; split; [by right|done]].
      destruct (next_active_cases act cur) as [Hn|Hn].
      * right. rewrite <- H, Hn. split; [by left|done].
      * left. by rewrite Hn, H.
  - done.
Qed.

(** The heading a pass makes active is one of the headings the TOC
    links resolve to, and it passes the candidate test: its offset is at
    most [scrollOffset + spacing/2]. The hysteresis test can keep an
    earlier candidate, never pick a non-candidate. *)
Theorem chosen_is_candidate p a p' :
  toc_pass p = Normal (Some a) p' →
  Some a ∈ contentTocList p
  ∧ h_offsetTop a <= pageYOffset p + spacing / 2.
Proof.
  intros Hpass. pose proof (toc_pass_value p) as Hv.
  rewrite Hpass in Hv. simpl in Hv. symmetry in Hv.
  apply scan_chosen in Hv as [[=]|[Hin Hb]]. split; [done|].
  unfold below_fold in Hb. by apply Z.ltb_ge in Hb.
Qed.

Lemma chosen_is_candidate_witness :
  Some (heading "usage" 800) ∈ contentTocList three_sections
  ∧ h_offsetTop (heading "usage" 800) <= pageYOffset three_sections + spacing / 2.
Proof.
  apply (chosen_is_candidate three_sections (heading "usage" 800)
           (page_of (toc_pass three_sections))).
  vm_compute. reflexivity.
Defined.

Lemma scan_none scrollTop rest act :
  scan scrollTop rest act = Some None
  ↔ act = None ∧ Forall (below scrollTop) rest.
Proof.
  revert act. induction rest as [|[cur|] rest IH]; intros act; simpl.
  - split; [intros [= ->]; by split|intros [-> _]; done].
  - unfold below_fold.
    destruct (Z.ltb_spec (scrollTop + spacing / 2) (h_offsetTop cur)); rewrite IH.
    + split; intros [? Hall]; (split; [done|]).
      * constructor; [|done]. exists cur. split; [done|lia].
      * by apply Forall_cons in Hall as [_ ?].
    + split; [intros [[=] _]|].
      intros [_ Hall]. apply Forall_cons in Hall as [(h & [= <-] & ?) _]. lia.
  - split; [done|]. intros [_ Hall].
    apply Forall_cons in Hall as [(h & [=] & _) _].
Qed.

(** A pass completes without an active heading exactly when every
    entry is a resolved heading beyond [scrollOffset + spacing/2]: as
    soon as one heading is a candidate, some heading is made active. *)
Theorem no_active_iff_no_candidate p :
  value_of (toc_pass p) = Some None
  ↔ Forall (below (pageYOffset p)) (contentTocList p).
Proof.
  rewrite toc_pass_value, scan_none. split; [by intros [_ ?]|done].
Qed.

(** *** The marker *)

Lemma clear_active_none ls :
  at_most_one_active ls → none_active (clear_active ls).
Proof.
  intros Hone. unfold clear_active, query_active.
  destruct (list_find _ ls) as [[i x]|] eqn:E; simpl.
  - apply list_find_Some in E as (Hi & Hx & _).
    intros j lj Hj Hact. destruct (decide (j = i)) as [->|Hne].
    + rewrite list_lookup_alter_eq, Hi in Hj. injection Hj as <-.
      unfold is_active in Hact. simpl in Hact.
      apply ClassListFacts.elem_of_remove in Hact as [? _]. done.
    + rewrite list_lookup_alter_ne in Hj by done.
      apply Hne. exact (Hone j i lj x Hj Hi Hact Hx).
  - intros j lj Hj Hact. apply list_find_None in E.
    eapply Forall_forall in E; [by apply E|]. by eapply list_elem_of_lookup_2.
Qed.

Lemma mark_only_active ls i l :
  none_active ls → ls !! i = Some l →
  only_active i (alter (on_classList (ClassList.add activeClassName)) i ls).
Proof.
  intros Hnone Hi j lj Hj. destruct (decide (j = i)) as [->|Hne].
  - rewrite list_lookup_alter_eq, Hi in Hj. injection Hj as <-.
    split; [done|]. intros _. apply ClassListFacts.elem_of_add. by left.
  - rewrite list_lookup_alter_ne in Hj by done.
    split; [|done]. intros Hact. by apply (Hnone j lj Hj) in Hact.
Qed.

Lemma only_active_at_most_one i ls : only_active i ls → at_most_one_active ls.
Proof.
  intros Ho j k lj lk Hj Hk Hlj Hlk.
  apply (Ho _ _ Hj) in Hlj. apply (Ho _ _ Hk) in Hlk. congruence.
Qed.

Lemma toc_loop_single_active scrollTop rest act p a p' :
  match act with
  | None => at_most_one_active (toc_links p)
  | Some a0 => ∃ i l, query_href (h_id a0) (toc_links p) = Some (i, l)
                      ∧ only_active i (toc_links p)
  end →
  toc_loop scrollTop rest act p = Normal (Some a) p' →
  ∃ i l, query_href (h_id a) (toc_links p') = Some (i, l)
         ∧ only_active i (toc_links p').
Proof.
  revert act p. induction rest as [|[cur|] rest IH]; intros act p Hinv; simpl.
  - intros [= -> ->]. done.
  - destruct (below_fold scrollTop cur); [by apply IH|].
    destruct (query_href (h_id (next_active act cur)) _) as [[i l]|] eqn:Hq;
      [|done].
    apply IH. exists i, (on_classList (ClassList.add activeClassName) l).
    simpl. split; [by apply query_href_alter|].
    eapply mark_only_active.
    + apply clear_active_none. destruct act as [a0|]; [|done].
      destruct Hinv as (i0 & l0 & _ & Ho). by eapply only_active_at_most_one.
    + by apply list_find_Some in Hq as (? & _).
  - done.
Qed.

(** On a page where at most one TOC link is marked, a pass that makes a
    heading active leaves exactly one marked link: the first link whose
    href is that heading's id. *)
Theorem single_active_link p a p' :
  at_most_one_active (toc_links p) →
  toc_pass p = Normal (Some a) p' →
  ∃ i l, query_href (h_id a) (toc_links p) = Some (i, l)
         ∧ only_active i (toc_links p').
Proof.
  intros Hone Hpass.
  pose proof (toc_pass_layout p) as Hlay. rewrite Hpass in Hlay. simpl in Hlay.
  apply toc_loop_single_active in Hpass; [|done].
  destruct Hpass as (i & l' & Hq & Ho).
  destruct (query_href_same_shape _ _ (toc_links p) _ _
              (eq_sym (same_shape _ _ Hlay)) Hq) as (l & Hq' & _).
  by exists i, l.
Qed.

Lemma single_active_link_witness :
  ∃ i l, query_href "usage" (toc_links stale_page) = Some (i, l)
         ∧ only_active i (toc_links (page_of (toc_pass stale_page))).
Proof.
  apply (single_active_link stale_page (heading "usage" 800)
           (page_of (toc_pass stale_page))).
  - intros [|[|[|i]]] [|[|[|j]]] li lj Hi Hj; simpl in Hi, Hj;
      try done; injection Hi as <-; injection Hj as <-;
      unfold is_active; vm_compute; done.
  - vm_compute. reflexivity.
Defined.

End TocChoice.

(** ** The two observers together *)

Module ObserverFacts.

Import Toc Pages TocFacts TopicBar Scroller.

Lemma toc_loop_set_postTopic scrollTop rest act cl p :
  toc_loop scrollTop rest act (set_postTopic cl p)
  = match toc_loop scrollTop rest act p with
    | Normal a q => Normal a (set_postTopic cl q)
    | Throw q => Throw (set_postTopic cl q)
    end.
Proof.
  revert act p. induction rest as [|[cur|] rest IH]; intros act p; simpl;
    try reflexivity.
  destruct (below_fold scrollTop cur); [apply IH|].
  destruct (query_href _ _) as [[i l]|]; [|reflexivity].
  rewrite <- IH. reflexivity.
Qed.

Lemma toc_loop_touches scrollTop rest act p :
  ∃ ls y, page_of (toc_loop scrollTop rest act p)
          = set_toc_scrollTo y (set_toc_links ls p).
Proof.
  revert act p. induction rest as [|[cur|] rest IH]; intros act p; simpl.
  - exists (toc_links p), (toc_scrollTo p). by destruct p.
  - destruct (below_fold scrollTop cur); [apply IH|].
    destruct (query_href _ _) as [[i l]|]; simpl.
    + match goal with
      | |- context [toc_loop _ _ ?a ?q] => destruct (IH a q) as (ls & y & ->)
      end.
      by exists ls, y.
    + exists (clear_active (toc_links p)), (toc_scrollTo p). by destruct p.
  - exists (toc_links p), (toc_scrollTo p). by destruct p.
Qed.

Lemma showTopic_past_toc evt ls y p :
  showTopic evt (set_toc_scrollTo y (set_toc_links ls p))
  = set_toc_scrollTo y (set_toc_links ls (showTopic evt p)).
Proof.
  unfold showTopic, threshold.
  cbn [pageYOffset innerHeight postTitle_offsetTop postTitle_height postTopic
       set_toc_scrollTo set_toc_links].
  repeat match goal with
         | |- context [if ?b then _ else _] => destruct b
         end; reflexivity.
Qed.

(** The two observers work on disjoint parts of the page: running the
    TOC pass after [showTopic] gives the same page, and the same active
    heading, as running [showTopic] after the TOC pass. *)
Theorem observers_commute evt p :
  page_of (toc_pass (showTopic evt p)) = showTopic evt (page_of (toc_pass p))
  ∧ value_of (toc_pass (showTopic evt p)) = value_of (toc_pass p).
Proof.
  pose proof (TopicBarBranches.showTopic_only_postTopic evt p) as E.
  remember (postTopic (showTopic evt p)) as cl eqn:Hcl.
  rewrite E. unfold toc_pass.
  change (contentTocList (set_postTopic cl p)) with (contentTocList p).
  change (pageYOffset (set_postTopic cl p)) with (pageYOffset p).
  rewrite toc_loop_set_postTopic.
  destruct (toc_loop_touches (pageYOffset p) (contentTocList p) None p)
    as (ls & y & Hq).
  split; [|by destruct (toc_loop _ _ _ p)].
  transitivity (set_postTopic cl
                  (page_of (toc_loop (pageYOffset p) (contentTocList p) None p))).
  { by destruct (toc_loop _ _ _ p). }
  rewrite Hq, showTopic_past_toc, E. reflexivity.
Qed.

Lemma toc_pass_postTopic p : postTopic (page_of (toc_pass p)) = postTopic p.
Proof.
  destruct (toc_loop_touches (pageYOffset p) (contentTocList p) None p)
    as (ls & y & Hq).
  unfold toc_pass. by rewrite Hq.
Qed.

Lemma mounted_with_toc p params q :
  toc_links p ≠ [] →
  forEach (mounted p) params q
  = match toc_pass q with
    | Normal _ q' => Normal tt (showTopic (Some params) q')
    | Throw q' => Throw q'
    end.
Proof.
  intros Hne. unfold mounted, catalogueHighlight.
  rewrite bool_decide_eq_false_2 by (by destruct (toc_links p)).
  simpl. by destruct (toc_pass q).
Qed.

Lemma timeout_keeps_frozen p e s :
  None ∈ contentTocList (page s) →
  None ∈ contentTocList (page (timeout (mounted p) e s))
  ∧ (toc_links p ≠ [] →
     postTopic (page (timeout (mounted p) e s)) = postTopic (page s)).
Proof.
  intros Hdang. unfold timeout. destruct (frames s !! e) as [fr|]; [|done].
  destruct (decide (toc_links p = [])) as [Hnil|Hne].
  - split; [|done]. unfold mounted, catalogueHighlight.
    rewrite bool_decide_eq_true_2 by (by rewrite Hnil). simpl.
    by rewrite (TopicBarBranches.showTopic_only_postTopic _ (page s)).
  - rewrite mounted_with_toc by done.
    pose proof (toc_pass_value (page s)) as Hv.
    pose proof (toc_pass_layout (page s)) as Hlay.
    pose proof (toc_pass_postTopic (page s)) as Hpt.
    destruct (toc_pass (page s)) as [a q|q]; simpl in *.
    + symmetry in Hv. exfalso.
      assert (scan (pageYOffset (page s)) (contentTocList (page s)) None = None)
        as Hn by (by apply scan_throws).
      congruence.
    + split; [|done]. by rewrite <- (contentTocList_same_layout _ _ Hlay).
Qed.

Lemma timeouts_keep_frozen p tms s :
  toc_links p ≠ [] →
  None ∈ contentTocList (page s) →
  None ∈ contentTocList (page (foldl (λ s tm, timeout (mounted p) (env tm) s) s tms))
  ∧ postTopic (page (foldl (λ s tm, timeout (mounted p) (env tm) s) s tms))
    = postTopic (page s).
Proof.
  intros Hne. revert s. induction tms as [|tm tms IH]; intros s Hd; simpl; [done|].
  destruct (timeout_keeps_frozen p (env tm) s Hd) as [Hd1 Hp1].
  destruct (IH _ Hd1) as [? ->]. split; [done|]. by apply Hp1.
Qed.

Lemma step_keeps_frozen p s i :
  toc_links p ≠ [] →
  None ∈ contentTocList (page s) →
  None ∈ contentTocList (page (step (mounted p) s i))
  ∧ postTopic (page (step (mounted p) s i)) = postTopic (page s).
Proof.
  intros Hne Hdang. destruct i as [event y|dt]; simpl; [done|].
  match goal with
  | |- context [foldl _ ?s0 ?tms] =>
      exact (timeouts_keep_frozen p tms s0 Hne Hdang)
  end.
Qed.

(** A TOC link whose target id no element carries freezes the topic
    bar for good: the TOC observer is registered first and throws on
    every dispatch, so [showTopic] never runs, whatever the user scrolls. *)
Theorem dangling_link_freezes_topic_bar p inputs link k :
  link ∈ toc_links p → href link = Some k → getElementById k p = None →
  postTopic (page (run (mounted p) (init p) inputs)) = postTopic p.
Proof.
  intros Hin Hh Hg.
  assert (toc_links p ≠ []) as Hne.
  { intros Hnil. rewrite Hnil in Hin. by apply elem_of_nil in Hin. }
  assert (None ∈ contentTocList (page (init p))) as Hdang.
  { apply contentTocList_spec. by exists link, k. }
  unfold run. change (postTopic p) with (postTopic (page (init p))).
  generalize dependent (init p). clear Hin Hg.
  induction inputs as [|i inputs IH]; intros s Hdang; simpl; [done|].
  destruct (step_keeps_frozen p s i Hne Hdang) as [Hd1 <-]. by apply IH.
Qed.

Lemma dangling_link_freezes_topic_bar_witness :
  postTopic (page (run (mounted dangling_page) (init dangling_page)
                     [Scroll 1 3000; Elapse 200; Scroll 2 100; Elapse 200]))
  = postTopic dangling_page.
Proof.
  apply (dangling_link_freezes_topic_bar dangling_page
           [Scroll 1 3000; Elapse 200; Scroll 2 100; Elapse 200]
           (link "gone" 24) "gone").
  - apply list_elem_of_In. right. left. reflexivity.
  - reflexivity.
  - vm_compute. reflexivity.
Defined.

End ObserverFacts.

(** ** The scroll batcher: order and timing of the dispatches *)

Module DispatchOrder.

Import Scroller ScrollerTrace ScrollerFacts.

Section WithCallbacks.

Variable callbacks : list Callback.

Lemma snapshot_of_alter b (e : nat) (frs : list Frame) :
  snapshot_of <$> alter (set_wait b) e frs = snapshot_of <$> frs.
Proof.
  revert e. induction frs as [|fr frs IH]; intros [|e]; simpl; try done.
  f_equal. apply IH.
Qed.

Lemma timeout_trace e s :
  (e < length (frames s))%nat →
  now (timeout callbacks e s) = now s
  ∧ timers (timeout callbacks e s) = timers s
  ∧ shots (timeout callbacks e s) = shots s
  ∧ dispatched (timeout callbacks e s)
    = dispatched s ++ option_list (shots s !! e).
Proof.
  intros He. unfold timeout, shots. rewrite list_lookup_fmap.
  destruct (lookup_lt_is_Some_2 _ _ He) as [fr ->].
  destruct (forEach _ _ _); simpl; rewrite ?snapshot_of_alter; done.
Qed.

Lemma timeouts_trace tms s :
  Forall (λ tm, (env tm < length (frames s))%nat) tms →
  now (foldl (λ s tm, timeout callbacks (env tm) s) s tms) = now s
  ∧ timers (foldl (λ s tm, timeout callbacks (env tm) s) s tms) = timers s
  ∧ shots (foldl (λ s tm, timeout callbacks (env tm) s) s tms) = shots s
  ∧ dispatched (foldl (λ s tm, timeout callbacks (env tm) s) s tms)
    = dispatched s ++ omap (λ tm, shots s !! env tm) tms.
Proof.
  revert s. induction tms as [|tm tms IH]; intros s Hb; simpl.
  { by rewrite app_nil_r. }
  apply Forall_cons in Hb as [Htm Hb].
  destruct (timeout_trace (env tm) s Htm) as (Hn & Ht & Hs & Hd).
  destruct (timeout_effect callbacks (env tm) s Htm) as (Hf & _).
  destruct (IH (timeout callbacks (env tm) s)) as (Hn' & Ht' & Hs' & Hd').
  { by rewrite Hf. }
  rewrite Hn', Ht', Hs', Hd', Hn, Ht, Hs, Hd, <- app_assoc.
  repeat split. f_equal. by destruct (shots s !! env tm).
Qed.

Lemma filter_none {A} (f : A → bool) (l : list A) :
  Forall (λ x, f x = false) l → List.filter f l = [].
Proof. induction 1 as [|x l Hx _ IH]; simpl; [done|]. by rewrite Hx. Qed.

Lemma filter_all {A} (f : A → bool) (l : list A) :
  Forall (λ x, f x = true) l → List.filter f l = l.
Proof. induction 1 as [|x l Hx _ IH]; simpl; [done|]. by rewrite Hx, IH. Qed.

(** In a queue sorted by due time, the due timers are a prefix. *)
Lemma due_prefix t tms :
  StronglySorted (λ a b, due a <= due b) tms →
  List.filter (is_due t) tms ++ List.filter (λ tm, negb (is_due t tm)) tms = tms.
Proof.
  induction 1 as [|tm tms Hs IH Hle]; simpl; [done|].
  destruct (is_due t tm) eqn:E; simpl.
  - f_equal. exact IH.
  - apply Z.leb_gt in E.
    assert (Forall (λ x, is_due t x = false) tms) as Hnot.
    { eapply Forall_impl; [exact Hle|]. simpl. intros x Hx.
      apply Z.leb_gt. lia. }
    rewrite (filter_none _ _ Hnot), filter_all; [done|].
    eapply Forall_impl; [exact Hnot|]. simpl. by intros x ->.
Qed.

Lemma sorted_filter (f : Timer → bool) tms :
  StronglySorted (λ a b, due a <= due b) tms →
  StronglySorted (λ a b, due a <= due b) (List.filter f tms).
Proof.
  induction 1 as [|tm tms Hs IH Hle]; simpl; [constructor|].
  destruct (f tm); [|done]. constructor; [done|].
  by apply Forall_filter_bool.
Qed.

Lemma sorted_snoc tms tm :
  StronglySorted (λ a b, due a <= due b) tms →
  Forall (λ x, due x <= due tm) tms →
  StronglySorted (λ a b, due a <= due b) (tms ++ [tm]).
Proof.
  induction 1 as [|x tms Hs IH Hle]; intros Hall; simpl.
  - repeat constructor.
  - apply Forall_cons in Hall as [Hx Hall]. constructor; [by apply IH|].
    apply Forall_app. split; [done|]. by repeat constructor.
Qed.

Lemma step_on_schedule s i :
  forward [i] → timers_bound s → on_schedule s →
  on_schedule (step callbacks s i).
Proof.
  intros Hfw Hb [Hsort Hwin]. apply Forall_cons in Hfw as [Hi _].
  destruct i as [event y|dt]; simpl.
  - split; simpl.
    + apply sorted_snoc; [done|].
      eapply Forall_impl; [exact Hwin|]. simpl. lia.
    + apply Forall_app. split; [done|]. repeat constructor; simpl; lia.
  - match goal with
    | |- context [foldl _ ?s0 ?tms] =>
        destruct (timeouts_trace tms s0) as (Hn & Ht & _)
    end.
    { by apply Forall_filter_bool. }
    unfold on_schedule. rewrite Hn, Ht. simpl. split.
    + by apply sorted_filter.
    + clear Hn Ht Hsort Hb. induction Hwin as [|tm tms Htm _ IH]; simpl; [done|].
      unfold is_due at 1. destruct (Z.leb_spec (due tm) (now s + dt)); simpl; [done|].
      constructor; [lia|done].
Qed.

Lemma omap_lookup_app (l1 l2 : list ScrollSnapshot) tms :
  Forall (λ tm, (env tm < length l1)%nat) tms →
  omap (λ tm, (l1 ++ l2) !! env tm) tms = omap (λ tm, l1 !! env tm) tms.
Proof.
  induction 1 as [|tm tms Htm _ IH]; simpl; [done|].
  rewrite lookup_app_l by done.
  destruct (l1 !! env tm); simpl; [f_equal|]; exact IH.
Qed.

Lemma step_trace s i :
  forward [i] → timers_bound s → on_schedule s →
  dispatched (step callbacks s i) ++ pending (step callbacks s i)
  = dispatched s ++ pending s ++ notifications [i].
Proof.
  intros Hfw Hb [Hsort Hwin]. destruct i as [event y|dt]; simpl.
  - unfold pending, shots. simpl. f_equal.
    rewrite fmap_app, omap_app. simpl.
    rewrite omap_lookup_app by (by rewrite length_fmap).
    f_equal. rewrite lookup_app_r by (by rewrite length_fmap).
    by rewrite length_fmap, Nat.sub_diag.
  - match goal with
    | |- context [foldl _ ?s0 ?tms] =>
        destruct (timeouts_trace tms s0) as (_ & Ht & Hs & Hd)
    end.
    { by apply Forall_filter_bool. }
    unfold pending. rewrite Ht, Hs, Hd. simpl. rewrite app_nil_r, <- app_assoc.
    f_equal. rewrite <- omap_app. unfold shots. simpl.
    by rewrite due_prefix.
Qed.

Lemma run_trace inputs s :
  forward inputs → timers_bound s → on_schedule s →
  on_schedule (run callbacks s inputs)
  ∧ dispatched (run callbacks s inputs) ++ pending (run callbacks s inputs)
    = dispatched s ++ pending s ++ notifications inputs.
Proof.
  unfold run. revert s. induction inputs as [|i inputs IH]; intros s Hfw Hb Hs; simpl.
  { by rewrite app_nil_r. }
  apply Forall_cons in Hfw as [Hi Hfw].
  assert (forward [i]) as Hfi by (by repeat constructor).
  destruct (step_effect callbacks s i Hb) as [Hb' _].
  pose proof (step_on_schedule s i Hfi Hb Hs) as Hs'.
  destruct (IH _ Hfw Hb' Hs') as [Hs'' Htr]. split; [done|].
  rewrite Htr, (app_assoc (dispatched _)), (step_trace s i Hfi Hb Hs), <- !app_assoc.
  f_equal. f_equal. unfold notifications. simpl.
  by destruct i.
Qed.

End WithCallbacks.

(** Dispatches follow arrivals: as long as time runs forward, the
    snapshots dispatched so far followed by those still pending are
    exactly the scroll notifications received, in arrival order, each
    carrying its own event and the page offset at its own arrival. *)
Theorem dispatches_follow_arrivals callbacks p inputs :
  forward inputs →
  dispatched (run callbacks (init p) inputs)
  ++ pending (run callbacks (init p) inputs)
  = notifications inputs.
Proof.
  intros Hfw.
  destruct (run_trace callbacks inputs (init p) Hfw) as [_ H].
  - constructor.
  - split; constructor.
  - by rewrite H.
Qed.

Lemma dispatches_follow_arrivals_witness :
  dispatched (run (mounted Pages.three_sections) (init Pages.three_sections)
                [Scroll 1 100; Elapse 10; Scroll 2 200; Elapse 145; Scroll 3 50])
  ++ pending (run (mounted Pages.three_sections) (init Pages.three_sections)
                [Scroll 1 100; Elapse 10; Scroll 2 200; Elapse 145; Scroll 3 50])
  = notifications [Scroll 1 100; Elapse 10; Scroll 2 200; Elapse 145; Scroll 3 50].
Proof.
  apply (dispatches_follow_arrivals (mounted Pages.three_sections)
           Pages.three_sections
           [Scroll 1 100; Elapse 10; Scroll 2 200; Elapse 145; Scroll 3 50]).
  repeat constructor; vm_compute; congruence.
Defined.

Section Timing.

Variable callbacks : list Callback.

Lemma pending_of_timers s Ap :
  Forall2 (timer_of s) Ap (timers s) → pending s = snd <$> Ap.
Proof.
  unfold pending. generalize (timers s).
  intros tms H. induction H as [|a tm Ap tms (_ & Hs & _) _ IH]; simpl; [done|].
  rewrite Hs. simpl. by f_equal.
Qed.

Lemma dispatched_of_timers s0 s Ap tms :
  shots s0 = shots s →
  Forall2 (timer_of s) Ap tms →
  omap (λ tm, shots s0 !! env tm) tms = snd <$> Ap.
Proof.
  intros ->. induction 1 as [|a tm Ap tms (_ & Hs & _) _ IH]; simpl; [done|].
  rewrite Hs. simpl. by f_equal.
Qed.

Lemma filter_is_due t tms :
  Forall (λ tm, due tm <= t) (List.filter (is_due t) tms)
  ∧ Forall (λ tm, t < due tm) (List.filter (λ tm, negb (is_due t tm)) tms).
Proof.
  induction tms as [|tm tms [IH1 IH2]]; simpl; [by split|].
  destruct (is_due t tm) eqn:E; simpl; split; try done; constructor; try done.
  - by apply Z.leb_le in E.
  - by apply Z.leb_gt in E.
Qed.

Lemma timer_of_transfer s s' A tms :
  Forall2 (timer_of s) A tms →
  Forall (λ tm, shots s' !! env tm = shots s !! env tm ∧ now s' < due tm) tms →
  Forall2 (timer_of s') A tms.
Proof.
  induction 1 as [|a tm A tms (H1 & H2 & _) _ IH]; intros Hall; [constructor|].
  apply Forall_cons in Hall as [[Hs Hn] Hall].
  constructor; [|by apply IH].
  split; [done|]. split; [by rewrite Hs|done].
Qed.

Lemma ripe_of_due s t A tms :
  Forall2 (timer_of s) A tms →
  Forall (λ tm, due tm <= t) tms →
  Forall (λ a, ripe t a = true) A.
Proof.
  induction 1 as [|a tm A tms (H1 & _ & _) _ IH]; intros Hall; [constructor|].
  apply Forall_cons in Hall as [Htm Hall].
  constructor; [|by apply IH]. unfold ripe. apply Z.leb_le. lia.
Qed.

Lemma step_accounts s i A :
  forward [i] → timers_bound s → on_schedule s → accounts_for s A →
  accounts_for (step callbacks s i) (A ++ arrivals (now s) [i])
  ∧ now (step callbacks s i) = clock (now s) [i].
Proof.
  intros Hfw Hb [Hsort Hwin] (Ad & Ap & -> & Hd & Hripe & Hp).
  apply Forall_cons in Hfw as [Hi _]. destruct i as [event y|dt]; simpl.
  - split; [|done].
    exists Ad, (Ap ++ [(now s, {| event := event; beforeOffsetY := y |})]).
    split; [by rewrite app_assoc|]. split; [done|]. split; [done|].
    apply Forall2_app.
    + eapply timer_of_transfer; [exact Hp|].
      unfold timers_bound in Hb. simpl.
      apply Forall_forall. intros tm Htm.
      eapply Forall_forall in Hb; [|exact Htm].
      eapply Forall_forall in Hwin; [|exact Htm].
      split; [|lia]. unfold shots. simpl.
      rewrite fmap_app, lookup_app_l; [done|]. by rewrite length_fmap.
    + repeat constructor; simpl; [|lia].
      unfold shots. simpl. rewrite fmap_app, lookup_app_r by (by rewrite length_fmap).
      by rewrite length_fmap, Nat.sub_diag.
  - rewrite app_nil_r.
    match goal with
    | |- context [foldl _ ?s0 ?tms] =>
        destruct (timeouts_trace callbacks tms s0) as (Hn & Ht & Hs & Hdd)
    end.
    { by apply Forall_filter_bool. }
    split; [|by rewrite Hn].
    rewrite <- (due_prefix (now s + dt) (timers s) Hsort) in Hp.
    apply Forall2_app_inv_r in Hp as (A1 & A2 & Hp1 & Hp2 & ->).
    destruct (filter_is_due (now s + dt) (timers s)) as [Hdue Hrest].
    exists (Ad ++ A1), A2. split; [by rewrite app_assoc|].
    rewrite Hn, Ht, Hdd. simpl. split; [|split].
    + rewrite fmap_app, Hd. f_equal.
      by apply (dispatched_of_timers _ s).
    + apply Forall_app. split.
      * eapply Forall_impl; [exact Hripe|]. simpl. intros a Ha.
        unfold ripe in *. apply Z.leb_le. apply Z.leb_le in Ha. lia.
      * by eapply ripe_of_due.
    + eapply timer_of_transfer; [exact Hp2|].
      eapply Forall_impl; [exact Hrest|]. simpl. intros tm Htm.
      by rewrite Hs, Hn.
Qed.

Lemma run_accounts inputs s A :
  forward inputs → timers_bound s → on_schedule s → accounts_for s A →
  accounts_for (run callbacks s inputs) (A ++ arrivals (now s) inputs)
  ∧ now (run callbacks s inputs) = clock (now s) inputs.
Proof.
  unfold run. revert s A.
  induction inputs as [|i inputs IH]; intros s A Hfw Hb Hs HA; simpl.
  { by rewrite app_nil_r. }
  apply Forall_cons in Hfw as [Hi Hfw].
  assert (forward [i]) as Hfi by (by repeat constructor).
  destruct (step_effect callbacks s i Hb) as [Hb' _].
  pose proof (step_on_schedule callbacks s i Hfi Hb Hs) as Hs'.
  destruct (step_accounts s i A Hfi Hb Hs HA) as [HA' Hn'].
  destruct (IH _ _ Hfw Hb' Hs' HA') as [HA'' Hn''].
  rewrite Hn', <- app_assoc in HA''. rewrite Hn' in Hn''.
  by destruct i.
Qed.

Lemma accounts_split s A :
  accounts_for s A →
  dispatched s = snd <$> List.filter (ripe (now s)) A
  ∧ pending s = snd <$> List.filter (λ a, negb (ripe (now s) a)) A.
Proof.
  intros (Ad & Ap & -> & Hd & Hripe & Hp).
  assert (Forall (λ a, ripe (now s) a = false) Ap) as Hnot.
  { clear Hd Hripe. induction Hp as [|a tm Ap tms (H1 & _ & H3) _ IH];
      constructor; [|done].
    unfold ripe. apply Z.leb_gt. lia. }
  rewrite !List.filter_app, (filter_all _ _ Hripe), (filter_none _ _ Hnot).
  rewrite (filter_none _ Ad), (filter_all _ Ap).
  - rewrite app_nil_r. simpl. split; [done|]. by apply pending_of_timers.
  - eapply Forall_impl; [exact Hnot|]. simpl. by intros a ->.
  - eapply Forall_impl; [exact Hripe|]. simpl. by intros a ->.
Qed.

End Timing.

(** The quiet interval is respected, exactly: as long as time runs
    forward, at any moment the snapshots dispatched so far are those of
    the notifications that arrived at least 150 time units ago, and the
    pending ones those that arrived less than 150 time units ago, both
    in arrival order. A notification is thus never dispatched before its
    150 units have passed, and is dispatched by the first step that
    reaches them. *)
Theorem dispatched_once_quiet_interval_over callbacks p inputs :
  forward inputs →
  now (run callbacks (init p) inputs) = clock 0 inputs
  ∧ dispatched (run callbacks (init p) inputs)
    = snd <$> List.filter (ripe (clock 0 inputs)) (arrivals 0 inputs)
  ∧ pending (run callbacks (init p) inputs)
    = snd <$> List.filter (λ a, negb (ripe (clock 0 inputs) a)) (arrivals 0 inputs).
Proof.
  intros Hfw.
  destruct (run_accounts callbacks inputs (init p) [] Hfw) as [HA Hn].
  - constructor.
  - split; constructor.
  - exists [], []. repeat split; constructor.
  - simpl in HA, Hn. split; [done|]. rewrite <- Hn. by apply accounts_split.
Qed.

Lemma dispatched_once_quiet_interval_over_witness :
  now (run (mounted Pages.three_sections) (init Pages.three_sections)
         [Scroll 1 100; Elapse 10; Scroll 2 200; Elapse 145; Scroll 3 50])
  = clock 0 [Scroll 1 100; Elapse 10; Scroll 2 200; Elapse 145; Scroll 3 50]
  ∧ dispatched (run (mounted Pages.three_sections) (init Pages.three_sections)
                  [Scroll 1 100; Elapse 10; Scroll 2 200; Elapse 145; Scroll 3 50])
    = snd <$> List.filter
        (ripe (clock 0 [Scroll 1 100; Elapse 10; Scroll 2 200; Elapse 145; Scroll 3 50]))
        (arrivals 0 [Scroll 1 100; Elapse 10; Scroll 2 200; Elapse 145; Scroll 3 50])
  ∧ pending (run (mounted Pages.three_sections) (init Pages.three_sections)
               [Scroll 1 100; Elapse 10; Scroll 2 200; Elapse 145; Scroll 3 50])
    = snd <$> List.filter
        (λ a, negb (ripe
           (clock 0 [Scroll 1 100; Elapse 10; Scroll 2 200; Elapse 145; Scroll 3 50]) a))
        (arrivals 0 [Scroll 1 100; Elapse 10; Scroll 2 200; Elapse 145; Scroll 3 50]).
Proof.
  apply (dispatched_once_quiet_interval_over (mounted Pages.three_sections)
           Pages.three_sections
           [Scroll 1 100; Elapse 10; Scroll 2 200; Elapse 145; Scroll 3 50]).
  repeat constructor; vm_compute; congruence.
Defined.

End DispatchOrder.

(** ** Scrolling back to the top *)

Module SmoothScrollFacts.

Import SmoothScroll.

Lemma Y_TopValve_is_pageYOffset p :
  js_or (pageYOffset p) (js_or (body_scrollTop p) (documentElement_scrollTop p))
  = pageYOffset p.
Proof.
  unfold js_or, body_scrollTop, documentElement_scrollTop. simpl.
  by destruct (Z.eqb_spec (pageYOffset p) 0).
Qed.

Lemma floor_085_bounds y : 1 < y → 1 <= floor_085 y < y.
Proof.
  intros Hy. unfold floor_085. split.
  - apply Z.div_le_lower_bound; lia.
  - apply Z.div_lt_upper_bound; lia.
Qed.

(** One call, on an integer offset in the range where [floor_085] is
    the floor of the double product: while the page is more than one
    pixel down, the call scrolls to exactly [floor (0.85 * offset)], the
    one [y] with [100 * y <= 85 * offset < 100 * (y + 1)], which is at
    least 1 and strictly above the current offset, and asks for another
    frame; at one pixel or less it scrolls to the top and asks for none.
    Nothing else on the page changes. *)
Theorem smoothScrollToTop_step p :
  pageYOffset p < 2 ^ 45 →
  (1 < pageYOffset p →
     ∃ y, smoothScrollToTop p = (set_pageYOffset y p, true)
          ∧ 100 * y <= 85 * pageYOffset p < 100 * (y + 1)
          ∧ 1 <= y < pageYOffset p)
  ∧ (pageYOffset p <= 1 → smoothScrollToTop p = (set_pageYOffset 0 p, false)).
Proof.
  intros _. unfold smoothScrollToTop. rewrite Y_TopValve_is_pageYOffset.
  split; intros Hy.
  - destruct (Z.ltb_spec 1 (pageYOffset p)); [|lia].
    exists (floor_085 (pageYOffset p)). split; [done|].
    split; [|by apply floor_085_bounds].
    unfold floor_085. split.
    + apply Z.mul_div_le. lia.
    + apply Z.mul_succ_div_gt. lia.
  - destruct (Z.ltb_spec 1 (pageYOffset p)); [lia|done].
Qed.

Lemma smoothScrollToTop_step_witness :
  ∃ y, smoothScrollToTop (Pages.post_page 1000 ∅)
       = (set_pageYOffset y (Pages.post_page 1000 ∅), true)
       ∧ 100 * y <= 85 * pageYOffset (Pages.post_page 1000 ∅) < 100 * (y + 1)
       ∧ 1 <= y < pageYOffset (Pages.post_page 1000 ∅).
Proof.
  apply (smoothScrollToTop_step (Pages.post_page 1000 ∅)).
  - vm_compute. reflexivity.
  - vm_compute. reflexivity.
Defined.





End SmoothScrollFacts.

(** ** The table-of-contents tracker: what a pass can change *)

Module TocFrame.

Import Toc TocMarks.

Lemma same_but_marker_refl l : same_but_marker l l.
Proof. split; [done|]. split; [done|]. by intros c _. Qed.

Lemma same_but_marker_trans l1 l2 l3 :
  same_but_marker l1 l2 → same_but_marker l2 l3 → same_but_marker l1 l3.
Proof.
  intros (H1 & H2 & H3) (K1 & K2 & K3). split; [congruence|]. split; [congruence|].
  intros c Hc. by rewrite K3, H3.
Qed.

Lemma alter_same_but_marker f (i : nat) (ls : list TocLink) :
  (∀ cl c, c ≠ activeClassName → (c ∈ f cl ↔ c ∈ cl)) →
  Forall2 same_but_marker ls (alter (on_classList f) i ls).
Proof.
  intros Hf. revert i. induction ls as [|l ls IH]; intros [|i]; simpl.
  - constructor.
  - constructor.
  - constructor; [|apply Forall2_same_length_lookup_2; [done|]].
    + split; [done|]. split; [done|]. intros c Hc. simpl. by apply Hf.
    + intros j x y Hx Hy. assert (x = y) as -> by congruence.
      apply same_but_marker_refl.
  - constructor; [apply same_but_marker_refl|apply IH].
Qed.

Lemma clear_active_same_but_marker ls :
  Forall2 same_but_marker ls (clear_active ls).
Proof.
  unfold clear_active. destruct (query_active ls).
  - apply alter_same_but_marker. intros cl c Hc.
    rewrite ClassListFacts.elem_of_remove. tauto.
  - apply Forall2_same_length_lookup_2; [done|].
    intros j x y Hx Hy. assert (x = y) as -> by congruence.
    apply same_but_marker_refl.
Qed.

Lemma toc_loop_frame scrollTop rest act p :
  ∃ ls y, page_of (toc_loop scrollTop rest act p)
          = set_toc_scrollTo y (set_toc_links ls p)
          ∧ Forall2 same_but_marker (toc_links p) ls.
Proof.
  assert (∀ q : Page, Forall2 same_but_marker (toc_links q) (toc_links q)) as Hrefl.
  { intros q. apply Forall2_same_length_lookup_2; [done|].
    intros j x y Hx Hy. assert (x = y) as -> by congruence.
    apply same_but_marker_refl. }
  revert act p. induction rest as [|[cur|] rest IH]; intros act p; simpl.
  - exists (toc_links p), (toc_scrollTo p). split; [by destruct p|apply Hrefl].
  - destruct (below_fold scrollTop cur); [apply IH|].
    destruct (query_href _ _) as [[i l]|]; simpl.
    + match goal with
      | |- context [toc_loop _ _ ?a ?q] => destruct (IH a q) as (ls & y & -> & Hls)
      end.
      exists ls, y. split; [done|]. simpl in Hls.
      eapply Forall2_trans; [apply same_but_marker_trans| |exact Hls].
      eapply Forall2_trans;
        [apply same_but_marker_trans|apply clear_active_same_but_marker|].
      apply alter_same_but_marker. intros cl c Hc.
      rewrite ClassListFacts.elem_of_add. tauto.
    + exists (clear_active (toc_links p)), (toc_scrollTo p).
      split; [by destruct p|apply clear_active_same_but_marker].
  - exists (toc_links p), (toc_scrollTo p). split; [by destruct p|apply Hrefl].
Qed.

(** Whether it completes or throws, a TOC pass changes nothing on the
    page but the panel scroll and the [is-active] class of TOC links:
    every link keeps its href, its position and all its other classes,
    and the window, the headings and the topic bar are as before. *)
Theorem toc_pass_changes_only_marker_and_scroll p :
  ∃ ls y, page_of (toc_pass p) = set_toc_scrollTo y (set_toc_links ls p)
          ∧ Forall2 same_but_marker (toc_links p) ls.
Proof. apply toc_loop_frame. Qed.

End TocFrame.

(** ** The language badge *)

Module CodeLabelFacts.

Import CodeLabel.

Lemma map_get_own key v :
  map_get key = Some (Text v) → ∃ k, (k, v) ∈ map.
Proof.
  unfold map_get. destruct (List.find _ map) as [[k v']|] eqn:E.
  - intros [= <-]. exists k. apply find_some in E as [Hin _].
    by apply list_elem_of_In.
  - by destruct (existsb _ _).
Qed.

Lemma map_values_fixed :
  Forall (λ kv, ascii_only kv.2 = true
                ∧ default (Text kv.2) (map_get (ascii_lower kv.2)) = Text kv.2) map.
Proof. unfold map. repeat constructor. Qed.

(** Labels are stable: relabelling a text label gives the same label
    (the display names of the table are either keys of themselves, up to
    case, or unknown to it). *)
Theorem pretty_idempotent toLowerCase lang t :
  lowers_ascii toLowerCase → ascii_only lang = true →
  pretty toLowerCase lang = Text t →
  pretty toLowerCase t = Text t.
Proof.
  intros Hlow Hascii. unfold pretty. rewrite (Hlow lang Hascii).
  destruct (map_get (ascii_lower lang)) as [[v|n]|] eqn:E; simpl.
  - intros [= <-]. destruct (map_get_own _ _ E) as [k Hin].
    pose proof map_values_fixed as Hall.
    eapply Forall_forall in Hall; [|exact Hin]. simpl in Hall.
    destruct Hall as [Hv Hfix]. by rewrite (Hlow v Hv).
  - done.
  - intros [= <-]. by rewrite (Hlow lang Hascii), E.
Qed.

Lemma lowers_ascii_ascii_lower : lowers_ascii ascii_lower.
Proof. by intros s _. Qed.

Lemma pretty_idempotent_witness :
  pretty ascii_lower "JavaScript" = Text "JavaScript".
Proof.
  apply (pretty_idempotent ascii_lower "JS" "JavaScript").
  - exact lowers_ascii_ascii_lower.
  - reflexivity.
  - reflexivity.
Defined.

Lemma map_keys_found :
  Forall (λ kv, map_get kv.1 = Some (Text kv.2)) map.
Proof. unfold map. repeat constructor. Qed.

(** The lookup ignores case: an ASCII class name whose lower-cased form
    is a key of the table gets that key's display name, in whatever
    letter case it is written ([PY], [Py] and [py] all give [Python]);
    a name whose lower-cased form neither the table nor
    [Object.prototype] knows is shown exactly as written. *)
Theorem pretty_ignores_case toLowerCase lang :
  lowers_ascii toLowerCase → ascii_only lang = true →
  (∀ k v, (k, v) ∈ map → ascii_lower lang = k →
          pretty toLowerCase lang = Text v)
  ∧ (map_get (ascii_lower lang) = None → pretty toLowerCase lang = Text lang).
Proof.
  intros Hlow Hascii. unfold pretty. rewrite (Hlow lang Hascii). split.
  - intros k v Hin ->. pose proof map_keys_found as Hall.
    eapply Forall_forall in Hall; [|exact Hin]. simpl in Hall.
    by rewrite Hall.
  - by intros ->.
Qed.

Lemma pretty_ignores_case_witness :
  pretty ascii_lower "PY" = Text "Python"
  ∧ pretty ascii_lower "Py" = Text "Python"
  ∧ pretty ascii_lower "Haskell" = Text "Haskell".
Proof.
  split; [|split].
  - apply (proj1 (pretty_ignores_case ascii_lower "PY"
                    lowers_ascii_ascii_lower eq_refl) "py" "Python");
      [|reflexivity].
    apply list_elem_of_In. unfold map. simpl. tauto.
  - apply (proj1 (pretty_ignores_case ascii_lower "Py"
                    lowers_ascii_ascii_lower eq_refl) "py" "Python");
      [|reflexivity].
    apply list_elem_of_In. unfold map. simpl. tauto.
  - apply (proj2 (pretty_ignores_case ascii_lower "Haskell"
                    lowers_ascii_ascii_lower eq_refl)).
    reflexivity.
Defined.

End CodeLabelFacts.
